(** * RealEstateGame: a shallow embedding of [RealEstateGame.py]

    The Python program keeps a board (a list of space objects) and a
    registry of players (a dict from names to [Player] objects).  Property
    spaces point to their owner by object reference, and the registry may
    replace the object stored under a name, so the embedding keeps an
    explicit object store for players: a reference is an index into
    [heap], the registry maps names to references, and a property's
    owner is an optional reference.  Methods are computations in a small
    state-and-exception monad; a raised exception keeps the mutations
    performed before it, as in Python. *)

From stdpp Require Import base numbers option list strings gmap.
From Stdlib Require Import ZArith Lia.

Local Open Scope Z_scope.

(** ** Player objects *)

Module Player.

Record t : Type := Build
  { name : string;
    account_balance : Z;
    position : Z }.

(** [Player.__init__]: a new player starts on position 0. *)
Definition init (name : string) (account_balance : Z) : t :=
  Build name account_balance 0.

Definition get_account_balance (self : t) : Z := account_balance self.

Definition get_position (self : t) : Z := position self.

(** [self._account_balance += amount] *)
Definition add_account_balance (amount : Z) (self : t) : t :=
  Build (name self) (account_balance self + amount) (position self).

(** [if amount - self._account_balance > 0: ... = 0  else: ... -= amount] *)
Definition sub_account_balance (amount : Z) (self : t) : t :=
  if amount - account_balance self >? 0
  then Build (name self) 0 (position self)
  else Build (name self) (account_balance self - amount) (position self).

(** [self._position += number_of_spaces], then one conditional
    subtraction of [board_size]. *)
Definition move_player (number_of_spaces board_size : Z) (self : t) : t :=
  let position1 := position self + number_of_spaces in
  if position1 >=? board_size
  then Build (name self) (account_balance self) (position1 - board_size)
  else Build (name self) (account_balance self) position1.

End Player.

(** ** Board spaces *)

(** A reference to a [Player] object: its index in the object store. *)
Abbreviation ref := nat (only parsing).

(** The two subclasses of [BoardSpace].  [GoSpace] carries its payout;
    [PropertySpace] carries its rent and its owner ([None] when unowned). *)
Inductive Space : Type :=
  | GoSpace (payout_amount : Z)
  | PropertySpace (rent : Z) (owner : option ref).

Definition get_space_type (sp : Space) : string :=
  match sp with
  | GoSpace _ => "GO"
  | PropertySpace _ _ => "Property"
  end.

(** [PropertySpace.new_owner]; the engine only calls it on property spaces. *)
Definition new_owner (player_obj : option ref) (sp : Space) : Space :=
  match sp with
  | GoSpace payout => GoSpace payout
  | PropertySpace rent _ => PropertySpace rent player_obj
  end.

(** [PropertySpace.get_buy_price]: five times the rent. *)
Definition get_buy_price (rent : Z) : Z := rent * 5.

(** ** Engine state and the monad of its methods *)

Record Game : Type := mkGame
  { gameboard : list Space;
    players : gmap string ref;
    heap : list Player.t }.

(** [RealEstateGame.__init__] *)
Definition new_game : Game := mkGame [] ∅ [].

(** Python exceptions the methods can raise.  [DanglingRef] is the
    model's own: it marks a reference outside the object store, which
    Python cannot produce.  [NotFoundError] is the error the
    specification names for an unknown player. *)
Inductive exn : Type :=
  | KeyError
  | IndexError
  | AttributeError
  | NotFoundError
  | DanglingRef.

Inductive res (A : Type) : Type :=
  | Ok (a : A)
  | Raise (e : exn).
Arguments Ok {A} a.
Arguments Raise {A} e.

Definition M (A : Type) : Type := Game → res A * Game.

Global Instance M_ret : MRet M := λ A a s, (Ok a, s).

Global Instance M_bind : MBind M := λ A B f m s,
  match m s with
  | (Ok a, s') => f a s'
  | (Raise e, s') => (Raise e, s')
  end.

Definition raise {A : Type} (e : exn) : M A := λ s, (Raise e, s).

(** [self._players[player_name]] *)
Definition players_getitem (player_name : string) : M ref := λ s,
  match players s !! player_name with
  | Some r => (Ok r, s)
  | None => (Raise KeyError, s)
  end.

(** Reading the fields of the object behind a reference. *)
Definition deref (r : ref) : M Player.t := λ s,
  match heap s !! r with
  | Some p => (Ok p, s)
  | None => (Raise DanglingRef, s)
  end.

(** Calling a mutating [Player] method on the object behind a reference. *)
Definition modify (r : ref) (f : Player.t → Player.t) : M unit := λ s,
  (Ok (), mkGame (gameboard s) (players s) (alter f r (heap s))).

(** Python list subscript: a negative index counts from the end. *)
Definition py_index (len : nat) (i : Z) : option nat :=
  if (0 <=? i) && (i <? Z.of_nat len) then Some (Z.to_nat i)
  else if (- Z.of_nat len <=? i) && (i <? 0) then Some (Z.to_nat (Z.of_nat len + i))
  else None.

(** [self._gameboard[i]], with the list slot it denotes. *)
Definition gameboard_getitem (i : Z) : M (nat * Space) := λ s,
  match py_index (length (gameboard s)) i with
  | Some k =>
      match gameboard s !! k with
      | Some sp => (Ok (k, sp), s)
      | None => (Raise IndexError, s)
      end
  | None => (Raise IndexError, s)
  end.

(** [len(self._gameboard)] *)
Definition gameboard_len : M Z := λ s,
  (Ok (Z.of_nat (length (gameboard s))), s).

(** [self._gameboard.append(space)] *)
Definition gameboard_append (sp : Space) : M unit := λ s,
  (Ok (), mkGame (gameboard s ++ [sp]) (players s) (heap s)).

(** [space.new_owner(o)] on the space object in slot [k]. *)
Definition space_new_owner (k : nat) (o : option ref) : M unit := λ s,
  (Ok (), mkGame (alter (new_owner o) k (gameboard s)) (players s) (heap s)).

(** [go_space.get_payout_amount()]: only [GoSpace] has the method. *)
Definition get_payout_amount (sp : Space) : M Z :=
  match sp with
  | GoSpace payout => mret payout
  | PropertySpace _ _ => raise AttributeError
  end.

(** ** The methods of [RealEstateGame] *)

(** The loop [for index in range(24)] of [create_spaces]. *)
Fixpoint create_spaces_loop (indices : list nat) (rent_amounts : list Z) : M unit :=
  match indices with
  | [] => mret ()
  | index :: rest =>
      match rent_amounts !! index with
      | None => raise IndexError
      | Some rent =>
          gameboard_append (PropertySpace rent None);;
          create_spaces_loop rest rent_amounts
      end
  end.

Definition create_spaces (go_payout : Z) (rent_amounts : list Z) : M unit :=
  gameboard_append (GoSpace go_payout);;
  create_spaces_loop (seq 0 24) rent_amounts.

(** A fresh [Player] object is allocated and stored under [name],
    replacing whatever object the name referred to. *)
Definition create_player (name : string) (account_balance : Z) : M unit :=
  if account_balance <=? 0 then mret ()
  else λ s,
    (Ok (), mkGame (gameboard s)
                   (<[name := length (heap s)]> (players s))
                   (heap s ++ [Player.init name account_balance])).

Definition get_player_account_balance (player_name : string) : M Z :=
  r ← players_getitem player_name;
  p ← deref r;
  mret (Player.get_account_balance p).

Definition get_player_current_position (player_name : string) : M Z :=
  r ← players_getitem player_name;
  p ← deref r;
  mret (Player.get_position p).

(** The test [space.get_space_type() != "GO" and space.get_owner() is None]
    is the case analysis on the space: [get_owner] is only asked of a
    property. *)
Definition buy_space (player_name : string) : M bool :=
  r ← players_getitem player_name;
  p ← deref r;
  '(k, space) ← gameboard_getitem (Player.get_position p);
  match space with
  | GoSpace _ => mret false
  | PropertySpace rent (Some _) => mret false
  | PropertySpace rent None =>
      account_balance ← get_player_account_balance player_name;
      let buy_price := get_buy_price rent in
      player ← players_getitem player_name;
      if account_balance >? buy_price then
        space_new_owner k (Some player);;
        modify player (Player.sub_account_balance buy_price);;
        mret true
      else mret false
  end.

(** The loop of [remove_player]: every property owned by [player_obj]
    loses its owner. *)
Definition vacate (player_obj : ref) (sp : Space) : Space :=
  match sp with
  | PropertySpace rent (Some o) =>
      if decide (o = player_obj) then new_owner None sp else sp
  | _ => sp
  end.

Definition vacate_all (player_obj : ref) : M unit := λ s,
  (Ok (), mkGame (vacate player_obj <$> gameboard s) (players s) (heap s)).

(** [remove_player] takes the player object itself; [==] on players is
    object identity, here equality of references. *)
Definition remove_player (player_obj : ref) : M unit :=
  p ← deref player_obj;
  modify player_obj (Player.sub_account_balance (Player.get_account_balance p));;
  vacate_all player_obj.

(** Lines 120-127: advance the player and pay the GO bonus on a wrap. *)
Definition advance (player : ref) (old_position number_of_spaces : Z) : M Z :=
  board_size ← gameboard_len;
  modify player (Player.move_player number_of_spaces board_size);;
  p1 ← deref player;
  let new_position := Player.get_position p1 in
  (if new_position <? old_position then
     '(_, go_space) ← gameboard_getitem 0;
     go_payout ← get_payout_amount go_space;
     modify player (Player.add_account_balance go_payout)
   else mret ());;
  mret new_position.

(** Lines 129-143: the effects of the space landed on.  The board is
    subscripted twice, as in the source; [owner != player] is object
    identity. *)
Definition settle (player : ref) (new_position : Z) : M unit :=
  '(_, landed) ← gameboard_getitem new_position;
  if String.eqb (get_space_type landed) "GO" then mret ()
  else
    '(_, current_property) ← gameboard_getitem new_position;
    match current_property with
    | GoSpace _ => raise AttributeError
    | PropertySpace property_rent None => mret ()
    | PropertySpace property_rent (Some property_owner) =>
        if decide (property_owner = player) then mret ()
        else
          p2 ← deref player;
          if Player.get_account_balance p2 <? property_rent then
            modify property_owner
                   (Player.add_account_balance (Player.get_account_balance p2));;
            remove_player player
          else
            modify property_owner (Player.add_account_balance property_rent);;
            modify player (Player.sub_account_balance property_rent)
    end.

Definition move_player (player_name : string) (number_of_spaces : Z) : M unit :=
  player ← players_getitem player_name;
  p ← deref player;
  if Player.get_account_balance p =? 0 then mret ()
  else if (number_of_spaces <? 1) || (number_of_spaces >? 6) then mret ()
  else
    let old_position := Player.get_position p in
    new_position ← advance player old_position number_of_spaces;
    settle player new_position.

(** The loop of [check_game_over] over the names of the registry. *)
Fixpoint players_not_out_loop (names : list string) (players_not_out : list string)
  : M (list string) :=
  match names with
  | [] => mret players_not_out
  | player :: rest =>
      account_balance ← get_player_account_balance player;
      if account_balance =? 0 then players_not_out_loop rest players_not_out
      else players_not_out_loop rest (players_not_out ++ [player])
  end.

(** The keys of [self._players].  A [gmap] lists its keys in an order of
    its own, not in insertion order; [check_game_over] only ever returns
    the element of a one-element list, so the order is not observable. *)
Definition players_keys : M (list string) := λ s,
  (Ok (map_to_list (players s)).*1, s).

Definition check_game_over : M string :=
  names ← players_keys;
  players_not_out ← players_not_out_loop names [];
  match players_not_out with
  | [winner] => mret winner
  | _ => mret ""
  end.

(** ** Sequences of engine calls *)

(** A call of a state-changing method by the driver.  [remove_player]
    takes a player object, that is, a reference. *)
Inductive op : Type :=
  | CreateSpaces (go_payout : Z) (rent_amounts : list Z)
  | CreatePlayer (name : string) (account_balance : Z)
  | BuySpace (player_name : string)
  | MovePlayer (player_name : string) (number_of_spaces : Z)
  | RemovePlayer (player_obj : ref).

(** The state a call leaves behind, whether it returns or raises. *)
Definition exec (o : op) (s : Game) : Game :=
  match o with
  | CreateSpaces go_payout rent_amounts => (create_spaces go_payout rent_amounts s).2
  | CreatePlayer name account_balance => (create_player name account_balance s).2
  | BuySpace player_name => (buy_space player_name s).2
  | MovePlayer player_name number_of_spaces => (move_player player_name number_of_spaces s).2
  | RemovePlayer player_obj => (remove_player player_obj s).2
  end.

Definition run (ops : list op) (s : Game) : Game := foldl (λ s o, exec o s) s ops.

(** The balance and position of the player registered under a name. *)
Definition balance_of (s : Game) (name : string) : option Z :=
  r ← players s !! name; p ← heap s !! r; Some (Player.account_balance p).

Definition position_of (s : Game) (name : string) : option Z :=
  r ← players s !! name; p ← heap s !! r; Some (Player.position p).

(** The owner of the space in a slot of the board. *)
Definition owner_at (s : Game) (k : nat) : option ref :=
  sp ← gameboard s !! k;
  match sp with
  | GoSpace _ => None
  | PropertySpace _ o => o
  end.

(** ** Predicates on states and computations *)

(** [keeps I m φ]: from a state satisfying [I], the computation [m]
    leaves a state satisfying [I], whether it returns or raises, and a
    value it returns satisfies [φ]. *)
Definition keeps {A : Type} (I : Game → Prop) (m : M A) (φ : A → Prop) : Prop :=
  ∀ s, I s → I (m s).2 ∧ ∀ a, (m s).1 = Ok a → φ a.

(** Balances never go negative. *)

Definition space_nonneg (sp : Space) : Prop :=
  match sp with
  | GoSpace payout => 0 ≤ payout
  | PropertySpace rent _ => 0 ≤ rent
  end.

Definition balance_nonneg (p : Player.t) : Prop := 0 ≤ Player.account_balance p.

(** Every player object has a non-negative balance, and the board was
    built from non-negative amounts. *)
Definition nonneg (s : Game) : Prop :=
  Forall balance_nonneg (heap s) ∧ Forall space_nonneg (gameboard s).

(** The amounts handed to [create_spaces] are non-negative (only the
    first 24 rents are read). *)
Definition op_nonneg (o : op) : Prop :=
  match o with
  | CreateSpaces go_payout rent_amounts =>
      0 ≤ go_payout ∧ Forall (λ rent, 0 ≤ rent) (take 24 rent_amounts)
  | _ => True
  end.

(** Well-formed stores. *)

(** [space.get_owner()]; a GO space has no owner. *)
Definition get_owner (sp : Space) : option ref :=
  match sp with
  | GoSpace _ => None
  | PropertySpace _ o => o
  end.

(** What every store built by the methods satisfies: references held by
    the registry and by the board point into the object store, the first
    space (if any) is the GO space, and no object is registered under two
    names. *)
Record wf (s : Game) : Prop := mk_wf
  { wf_registered : ∀ name r, players s !! name = Some r → (r < length (heap s))%nat;
    wf_owner : Forall (λ sp, ∀ o, get_owner sp = Some o → (o < length (heap s))%nat)
                      (gameboard s);
    wf_go : ∀ sp, gameboard s !! 0%nat = Some sp → ∃ payout, sp = GoSpace payout;
    wf_inj : ∀ name1 name2 r,
        players s !! name1 = Some r → players s !! name2 = Some r → name1 = name2 }.

(** A well-formed store whose board already starts with the GO space. *)
Definition wf_started (s : Game) : Prop := wf s ∧ gameboard s ≠ [].

(** A player object is registered when the registry holds it under some name. *)
Definition registered (s : Game) (r : ref) : Prop :=
  ∃ name, players s !! name = Some r.

(** Every owner on the board is a registered player object. *)
Definition owners_registered (s : Game) : Prop :=
  Forall (λ sp, ∀ o, get_owner sp = Some o → registered s o) (gameboard s).

(** No [create_player] call of the sequence stores a player under a name
    that the registry already holds. *)
Fixpoint no_overwrite (ops : list op) (s : Game) : Prop :=
  match ops with
  | [] => True
  | o :: rest =>
      match o with
      | CreatePlayer name account_balance =>
          0 < account_balance → players s !! name = None
      | _ => True
      end ∧ no_overwrite rest (exec o s)
  end.

(** Quantities of one move. *)

(** [self._gameboard[0].get_payout_amount()] *)
Definition go_payout_of (s : Game) : Z :=
  match gameboard s !! 0%nat with
  | Some (GoSpace payout) => payout
  | _ => 0
  end.

(** The position [Player.move_player] gives a player on this board. *)
Definition new_position_of (s : Game) (p : Player.t) (number_of_spaces : Z) : Z :=
  Player.position
    (Player.move_player number_of_spaces (Z.of_nat (length (gameboard s))) p).

(** The test [new_position < old_position] of [move_player]. *)
Definition wrapped (s : Game) (p : Player.t) (number_of_spaces : Z) : bool :=
  new_position_of s p number_of_spaces <? Player.position p.

(** The number of GO payouts a move credits, and their amount. *)
Definition go_credits (s : Game) (p : Player.t) (number_of_spaces : Z) : Z :=
  if wrapped s p number_of_spaces then 1 else 0.

(** The space a Python subscript of the board denotes. *)
Definition space_at (s : Game) (i : Z) : option Space :=
  k ← py_index (length (gameboard s)) i; gameboard s !! k.

(** The sum of the balances of the registered players. *)
Definition balance_at (s : Game) (r : ref) : Z :=
  from_option Player.account_balance 0 (heap s !! r).

Definition total_balance (s : Game) : Z :=
  foldr Z.add 0 ((λ nr, balance_at s nr.2) <$> map_to_list (players s)).

(** The amount a move credits for GO. *)
Definition go_credit (s : Game) (p : Player.t) (number_of_spaces : Z) : Z :=
  go_credits s p number_of_spaces * go_payout_of s.

(** The player object after lines 120-127 of [move_player]: moved, and
    credited for GO. *)
Definition moved (s : Game) (p : Player.t) (number_of_spaces : Z) : Player.t :=
  Player.Build (Player.name p)
               (Player.account_balance p + go_credit s p number_of_spaces)
               (new_position_of s p number_of_spaces).

Definition after_advance (s : Game) (player : ref) (p : Player.t)
    (number_of_spaces : Z) : Game :=
  mkGame (gameboard s) (players s) (<[player := moved s p number_of_spaces]> (heap s)).

(** What landing costs the mover: nothing on GO, on an unowned space or
    on the mover's own space; otherwise the rent, or all that is left
    when that is less. *)
Definition landing_charge (s : Game) (player : ref) (p : Player.t)
    (number_of_spaces : Z) : Z :=
  match space_at s (new_position_of s p number_of_spaces) with
  | Some (PropertySpace rent (Some o)) =>
      if decide (o = player) then 0
      else Z.min rent (Player.account_balance (moved s p number_of_spaces))
  | _ => 0
  end.

(** The sum of a quantity over a list of player objects. *)
Definition sum_over (d : ref → Z) (l : list ref) : Z := foldr Z.add 0 (d <$> l).

(** Positions on the 25-space board. *)

Definition on_board (p : Player.t) : Prop := 0 ≤ Player.position p ≤ 24.

(** The board has its 25 spaces and every player object stands on it. *)
Definition board_ready (s : Game) : Prop :=
  length (gameboard s) = 25%nat ∧ Forall on_board (heap s).

(** Before the board exists every player object stands on position 0. *)
Definition at_start (s : Game) : Prop :=
  gameboard s = [] ∧ Forall (λ p, Player.position p = 0) (heap s).

Definition is_create_spaces (o : op) : Prop :=
  match o with CreateSpaces _ _ => True | _ => False end.

Definition is_move_player (o : op) : Prop :=
  match o with MovePlayer _ _ => True | _ => False end.

(** The driver's protocol: [create_spaces] is called exactly once, with at
    least 24 rents, and before any player moves. *)
Definition protocol (ops : list op) : Prop :=
  ∃ setup go_payout rent_amounts rest,
    ops = setup ++ CreateSpaces go_payout rent_amounts :: rest ∧
    Forall (λ o, ¬ is_create_spaces o ∧ ¬ is_move_player o) setup ∧
    (24 ≤ length rent_amounts)%nat ∧
    Forall (λ o, ¬ is_create_spaces o) rest.

(** The players that are still in the game. *)
Definition active (s : Game) (name : string) : Prop :=
  ∃ r p, players s !! name = Some r ∧ heap s !! r = Some p ∧
         Player.account_balance p ≠ 0.

(** The test [account_balance != 0] of [check_game_over] for a name. *)
Definition still_in (s : Game) (name : string) : bool :=
  match balance_of s name with
  | Some account_balance => negb (account_balance =? 0)
  | None => false
  end.

(** Games used as concrete instances. *)

(** Scenario 1 of the specification: A buys space 1. *)
Definition opening : list op :=
  [CreateSpaces 50 (replicate 24 10); CreatePlayer "A" 100; CreatePlayer "B" 100;
   MovePlayer "A" 1; BuySpace "A"].

(** A poor player B is about to land on the property of A. *)
Definition poor_visitor : list op :=
  [CreateSpaces 50 (replicate 24 10); CreatePlayer "A" 100; CreatePlayer "B" 5;
   MovePlayer "A" 1; BuySpace "A"].

(** The name A is registered a second time after A bought space 1. *)
Definition reregistered : list op :=
  opening ++ [CreatePlayer "A" 100].

(** A walks to the last space of the board, one move short of a lap. *)
Definition lap : list op :=
  [CreateSpaces 50 (replicate 24 10); CreatePlayer "A" 100;
   MovePlayer "A" 6; MovePlayer "A" 6; MovePlayer "A" 6; MovePlayer "A" 6].

(** A owns space 1 and pays B a rent equal to all the money A has. *)
Definition exact_rent : list op :=
  [CreateSpaces 50 (10 :: replicate 23 50); CreatePlayer "A" 100;
   CreatePlayer "B" 1000; MovePlayer "A" 1; BuySpace "A";
   MovePlayer "B" 2; BuySpace "B"; MovePlayer "A" 1].

(** The property space [create_spaces] makes from a rent. *)
Definition fresh_property (rent : Z) : Space := PropertySpace rent None.

(** A space without its owner: what no method but [create_spaces] sets. *)
Definition layout (s : Game) : list Space := new_owner None <$> gameboard s.

Definition is_create_player (o : op) : Prop :=
  match o with CreatePlayer _ _ => True | _ => False end.

(** No player object stands on a negative position. *)
Definition positions_nonneg (s : Game) : Prop :=
  Forall (λ p, 0 ≤ Player.position p) (heap s).

(** The owner of the space a Python subscript of the board denotes. *)
Definition owner_at_position (s : Game) (i : Z) : option ref :=
  sp ← space_at s i; get_owner sp.

(** A player object that is out of the game: no money and no space. *)
Definition out_of_game (s : Game) (r : ref) : Prop :=
  (∃ p, heap s !! r = Some p ∧ Player.account_balance p = 0) ∧
  Forall (λ sp, get_owner sp ≠ Some r) (gameboard s).

(** A board whose GO space takes money, and one lap of A around it. *)
Definition debt_lap : list op :=
  [CreateSpaces (-1000) (replicate 24 10); CreatePlayer "A" 100;
   MovePlayer "A" 6; MovePlayer "A" 6; MovePlayer "A" 6; MovePlayer "A" 6;
   MovePlayer "A" 1].

(** A is moved ten times before the board is built: every call raises
    and still advances A. *)
Definition early_moves : list op :=
  CreatePlayer "A" 100 :: replicate 10 (MovePlayer "A" 6)
    ++ [CreateSpaces 50 (replicate 24 10)].

(* ================================================================== *)
(** * Properties *)

(** ** Reasoning about computations in [M] *)

Section Keeps.
Context (I : Game → Prop).

Lemma keeps_ret {A} (a : A) (φ : A → Prop) : φ a → keeps I (mret a) φ.
Proof. intros Ha s Hs; split; [done|]. by intros ? [= <-]. Qed.

Lemma keeps_raise {A} (e : exn) (φ : A → Prop) : keeps I (raise e) φ.
Proof. intros s Hs; split; [done|]. by intros ? [=]. Qed.

Lemma keeps_bind {A B} (m : M A) (f : A → M B) (φ : A → Prop) (ψ : B → Prop) :
  keeps I m φ → (∀ a, φ a → keeps I (f a) ψ) → keeps I (m ≫= f) ψ.
Proof.
  intros Hm Hf s Hs. unfold mbind, M_bind.
  destruct (Hm s Hs) as [Hs' Ha]. destruct (m s) as [[a|e] s']; simpl in *.
  - by apply Hf; [apply Ha|].
  - split; [done|]. by intros ? [=].
Qed.

Lemma keeps_weaken {A} (m : M A) (φ ψ : A → Prop) :
  keeps I m φ → (∀ a, φ a → ψ a) → keeps I m ψ.
Proof. intros Hm Hw s Hs. destruct (Hm s Hs); split; eauto. Qed.

(** A computation that only reads the state. *)
Lemma keeps_read {A} (m : M A) (φ : A → Prop) :
  (∀ s, (m s).2 = s) → (∀ s a, I s → (m s).1 = Ok a → φ a) → keeps I m φ.
Proof. intros Hro Hv s Hs; split; [by rewrite Hro|eauto]. Qed.

(** A computation that returns no information. *)
Lemma keeps_write (m : M unit) :
  (∀ s, I s → I (m s).2) → keeps I m (λ _, True).
Proof. intros Hw s Hs; split; eauto. Qed.
End Keeps.

(** The primitive reads leave the state alone. *)
Lemma players_getitem_read name s : (players_getitem name s).2 = s.
Proof. unfold players_getitem. by destruct (players s !! name). Qed.

Lemma deref_read r s : (deref r s).2 = s.
Proof. unfold deref. by destruct (heap s !! r). Qed.

Lemma gameboard_getitem_read i s : (gameboard_getitem i s).2 = s.
Proof. unfold gameboard_getitem. by repeat case_match. Qed.

Lemma deref_Ok r s p : (deref r s).1 = Ok p → heap s !! r = Some p.
Proof. unfold deref. destruct (heap s !! r); by intros [=->]. Qed.

Lemma gameboard_getitem_Ok i s k sp :
  (gameboard_getitem i s).1 = Ok (k, sp) →
  py_index (length (gameboard s)) i = Some k ∧ gameboard s !! k = Some sp.
Proof. unfold gameboard_getitem. repeat case_match; by intros [=-> ->]. Qed.

(** ** Balances never go negative *)

Lemma sub_account_balance_nonneg amount p :
  balance_nonneg p → balance_nonneg (Player.sub_account_balance amount p).
Proof.
  unfold balance_nonneg, Player.sub_account_balance.
  destruct (Z.gtb_spec (amount - Player.account_balance p) 0); simpl; lia.
Qed.

Lemma add_account_balance_nonneg amount :
  0 ≤ amount →
  ∀ p, balance_nonneg p → balance_nonneg (Player.add_account_balance amount p).
Proof. unfold balance_nonneg, Player.add_account_balance; simpl; lia. Qed.

Lemma move_player_nonneg n size p :
  balance_nonneg p → balance_nonneg (Player.move_player n size p).
Proof. unfold balance_nonneg, Player.move_player. by case_match. Qed.

Lemma nonneg_modify r f :
  (∀ p, balance_nonneg p → balance_nonneg (f p)) →
  keeps nonneg (modify r f) (λ _, True).
Proof.
  intros Hf. apply keeps_write. intros s [Hh Hb]. split; [|done]. simpl.
  by apply Forall_alter; [|intros p _; apply Hf].
Qed.

Lemma nonneg_deref r : keeps nonneg (deref r) balance_nonneg.
Proof.
  apply keeps_read; [apply deref_read|]. intros s p [Hh _] Hp%deref_Ok.
  by eapply Forall_lookup_1 in Hh.
Qed.

Lemma nonneg_gameboard_getitem i :
  keeps nonneg (gameboard_getitem i) (λ ksp, space_nonneg ksp.2).
Proof.
  apply keeps_read; [apply gameboard_getitem_read|].
  intros s [k sp] [_ Hb] [_ Hsp]%gameboard_getitem_Ok.
  by eapply Forall_lookup_1 in Hb.
Qed.

Lemma nonneg_players_getitem name : keeps nonneg (players_getitem name) (λ _, True).
Proof. apply keeps_read; [apply players_getitem_read|done]. Qed.

Lemma nonneg_vacate_all r : keeps nonneg (vacate_all r) (λ _, True).
Proof.
  apply keeps_write. intros s [Hh Hb]. split; [done|]. simpl.
  apply Forall_fmap. eapply Forall_impl; [done|].
  intros [|rent [o|]]; simpl; try done. by case_decide.
Qed.

Lemma nonneg_remove_player r : keeps nonneg (remove_player r) (λ _, True).
Proof.
  unfold remove_player.
  eapply keeps_bind; [apply nonneg_deref|]. intros p Hp.
  eapply keeps_bind; [apply nonneg_modify, sub_account_balance_nonneg|]. intros _ _.
  apply nonneg_vacate_all.
Qed.

Lemma nonneg_advance player old n : keeps nonneg (advance player old n) (λ _, True).
Proof.
  unfold advance.
  eapply keeps_bind; [by apply keeps_read with (φ := λ _, True)|]. intros size _.
  eapply keeps_bind; [apply nonneg_modify, move_player_nonneg|]. intros _ _.
  eapply keeps_bind; [apply nonneg_deref|]. intros p1 _.
  eapply keeps_bind with (φ := λ _, True); [|intros; by apply keeps_ret].
  case_match; [|by apply keeps_ret].
  eapply keeps_bind; [apply nonneg_gameboard_getitem|]. intros [k [payout|rent o]] Hgo; simpl in *.
  - eapply keeps_bind; [by apply keeps_ret with (φ := λ a, 0 ≤ a)|]. intros a Ha.
    apply nonneg_modify. by apply add_account_balance_nonneg.
  - eapply keeps_bind with (φ := λ _, False); [apply keeps_raise|]. intros a [].
Qed.

Lemma nonneg_settle player new : keeps nonneg (settle player new) (λ _, True).
Proof.
  unfold settle.
  eapply keeps_bind; [apply nonneg_gameboard_getitem|]. intros [k landed] _.
  case_match; [by apply keeps_ret|].
  eapply keeps_bind; [apply nonneg_gameboard_getitem|].
  intros [k' [payout|rent [o|]]] Hrent; simpl in *;
    [apply keeps_raise| |by apply keeps_ret].
  case_decide; [by apply keeps_ret|].
  eapply keeps_bind; [apply nonneg_deref|]. intros p2 Hp2.
  case_match.
  - eapply keeps_bind; [apply nonneg_modify; by apply add_account_balance_nonneg|].
    intros _ _. apply nonneg_remove_player.
  - eapply keeps_bind; [apply nonneg_modify; by apply add_account_balance_nonneg|].
    intros _ _. apply nonneg_modify, sub_account_balance_nonneg.
Qed.

Lemma nonneg_move_player name n : keeps nonneg (move_player name n) (λ _, True).
Proof.
  unfold move_player.
  eapply keeps_bind; [apply nonneg_players_getitem|]. intros player _.
  eapply keeps_bind; [apply nonneg_deref|]. intros p _.
  case_match; [by apply keeps_ret|]. case_match; [by apply keeps_ret|].
  eapply keeps_bind; [apply nonneg_advance|]. intros new _. apply nonneg_settle.
Qed.

(** [buy_space] either leaves the state alone or records the purchase. *)
Lemma buy_space_unfold name s :
  buy_space name s =
  match players s !! name with
  | None => (Raise KeyError, s)
  | Some r =>
      match heap s !! r with
      | None => (Raise DanglingRef, s)
      | Some p =>
          match py_index (length (gameboard s)) (Player.position p) with
          | None => (Raise IndexError, s)
          | Some k =>
              match gameboard s !! k with
              | None => (Raise IndexError, s)
              | Some (PropertySpace rent None) =>
                  if Player.account_balance p >? rent * 5 then
                    (Ok true,
                     mkGame (alter (new_owner (Some r)) k (gameboard s)) (players s)
                            (alter (Player.sub_account_balance (rent * 5)) r (heap s)))
                  else (Ok false, s)
              | Some _ => (Ok false, s)
              end
          end
      end
  end.
Proof.
  unfold buy_space, get_player_account_balance, players_getitem, deref,
    gameboard_getitem, space_new_owner, modify, get_buy_price,
    Player.get_position, Player.get_account_balance, mbind, M_bind, mret, M_ret.
  destruct (players s !! name) as [r|] eqn:Hr; [|done].
  destruct (heap s !! r) as [p|] eqn:Hp; [|done].
  destruct (py_index _ _) as [k|]; [|done].
  destruct (gameboard s !! k) as [[payout|rent [o|]]|]; try done.
  repeat (rewrite ?Hr, ?Hp; simpl). by case_match.
Qed.

Lemma nonneg_buy_space name : keeps nonneg (buy_space name) (λ _, True).
Proof.
  intros s [Hh Hb]. split; [|done]. rewrite buy_space_unfold.
  repeat case_match; try done. split; simpl.
  - apply Forall_alter; [done|]. intros; by apply sub_account_balance_nonneg.
  - apply Forall_alter; [done|]. by intros [].
Qed.

Lemma nonneg_create_player name balance : keeps nonneg (create_player name balance) (λ _, True).
Proof.
  apply keeps_write. intros s [Hh Hb]. unfold create_player.
  destruct (Z.leb_spec balance 0); [done|]. split; [|done]. simpl.
  apply Forall_app; split; [done|]. apply Forall_singleton.
  unfold balance_nonneg; simpl; lia.
Qed.

Lemma nonneg_gameboard_append sp :
  space_nonneg sp → keeps nonneg (gameboard_append sp) (λ _, True).
Proof.
  intros Hsp. apply keeps_write. intros s [Hh Hb]. split; [done|]. simpl.
  apply Forall_app; split; [done|]. by apply Forall_singleton.
Qed.

Lemma nonneg_create_spaces_loop indices rent_amounts :
  Forall (λ index, (index < 24)%nat) indices →
  Forall (λ rent, 0 ≤ rent) (take 24 rent_amounts) →
  keeps nonneg (create_spaces_loop indices rent_amounts) (λ _, True).
Proof.
  intros Hi Hr. induction Hi as [|index rest Hindex _ IH]; simpl; [by apply keeps_ret|].
  destruct (rent_amounts !! index) as [rent|] eqn:Hrent; [|apply keeps_raise].
  eapply keeps_bind; [|intros _ _; apply IH].
  apply nonneg_gameboard_append. simpl.
  eapply (Forall_lookup_1 _ _ index) in Hr; [done|]. by rewrite lookup_take_lt.
Qed.

Lemma nonneg_create_spaces go_payout rent_amounts :
  0 ≤ go_payout → Forall (λ rent, 0 ≤ rent) (take 24 rent_amounts) →
  keeps nonneg (create_spaces go_payout rent_amounts) (λ _, True).
Proof.
  intros Hgo Hr. unfold create_spaces.
  eapply keeps_bind; [by apply nonneg_gameboard_append|]. intros _ _.
  apply nonneg_create_spaces_loop; [|done].
  apply Forall_forall. intros index Hin%elem_of_seq. lia.
Qed.

Lemma nonneg_exec o s : op_nonneg o → nonneg s → nonneg (exec o s).
Proof.
  destruct o as [go rents|name balance|name|name n|r]; simpl; intros Ho Hs.
  - destruct Ho. by apply nonneg_create_spaces.
  - by apply nonneg_create_player.
  - by apply nonneg_buy_space.
  - by apply nonneg_move_player.
  - by apply nonneg_remove_player.
Qed.

Lemma nonneg_run ops s : Forall op_nonneg ops → nonneg s → nonneg (run ops s).
Proof.
  intros Hops. revert s. induction Hops as [|o ops Ho _ IH]; intros s Hs; [done|].
  simpl. by apply IH, nonneg_exec.
Qed.

Lemma nonneg_new_game : nonneg new_game.
Proof. split; constructor. Qed.

(** ** Invariants that no move can break

    An invariant kept by every mutation of a player object and by the
    vacating loop is kept by [remove_player] and [move_player], whatever
    amounts they move around. *)

Ltac frame_step :=
  lazymatch goal with
  | |- keeps _ (mret _) _ => by apply keeps_ret
  | |- keeps _ (raise _) _ => apply keeps_raise
  | |- keeps _ (mbind _ _) _ => eapply keeps_bind with (φ := λ _, True); [|intros ? _]
  | |- keeps _ (deref _) _ => apply keeps_read; [apply deref_read|done]
  | |- keeps _ (players_getitem _) _ => apply keeps_read; [apply players_getitem_read|done]
  | |- keeps _ (gameboard_getitem _) _ => apply keeps_read; [apply gameboard_getitem_read|done]
  | |- keeps _ gameboard_len _ => by apply keeps_read
  | |- keeps _ (get_payout_amount ?sp) _ => destruct sp; simpl
  | |- keeps _ (match ?x with _ => _ end) _ => destruct x
  end.

Section Frame.
Context (I : Game → Prop).
Hypothesis I_modify : ∀ r f s, I s → I (modify r f s).2.
Hypothesis I_vacate_all : ∀ r s, I s → I (vacate_all r s).2.

Lemma frame_modify r f : keeps I (modify r f) (λ _, True).
Proof. apply keeps_write. intros; by apply I_modify. Qed.

Lemma frame_vacate_all r : keeps I (vacate_all r) (λ _, True).
Proof. apply keeps_write. intros; by apply I_vacate_all. Qed.

Lemma frame_remove_player r : keeps I (remove_player r) (λ _, True).
Proof.
  unfold remove_player.
  repeat first [apply frame_modify | apply frame_vacate_all | frame_step].
Qed.

Lemma frame_advance player old n : keeps I (advance player old n) (λ _, True).
Proof.
  unfold advance. repeat first [apply frame_modify | frame_step].
Qed.

Lemma frame_settle player new : keeps I (settle player new) (λ _, True).
Proof.
  unfold settle.
  repeat first [apply frame_modify | apply frame_remove_player | frame_step].
Qed.

Lemma frame_move_player name n : keeps I (move_player name n) (λ _, True).
Proof.
  unfold move_player.
  repeat first [apply frame_advance | apply frame_settle | frame_step].
Qed.
End Frame.

(** ** Every store the methods build is well formed *)

Lemma wf_new_game : wf new_game.
Proof. split; simpl; try done. Qed.

Lemma wf_modify r f s : wf s → wf (modify r f s).2.
Proof.
  intros [Hr Ho Hg Hi]. split; simpl; try done.
  - intros name r' Hname. rewrite length_alter. eauto.
  - eapply Forall_impl; [done|]. intros sp Hsp o Hown. rewrite length_alter. eauto.
Qed.

Lemma get_owner_vacate r sp o :
  get_owner (vacate r sp) = Some o → get_owner sp = Some o.
Proof. destruct sp as [|rent [o'|]]; simpl; try done. by case_decide. Qed.

Lemma wf_vacate_all r s : wf s → wf (vacate_all r s).2.
Proof.
  intros [Hr Ho Hg Hi]. split; simpl; try done.
  - apply Forall_fmap. eapply Forall_impl; [done|].
    intros sp Hsp o Hown%get_owner_vacate. eauto.
  - intros sp. rewrite list_lookup_fmap.
    destruct (gameboard s !! 0%nat) as [sp0|] eqn:H0; [|done].
    destruct (Hg sp0 eq_refl) as [payout ->]. intros [= <-]. by exists payout.
Qed.

Lemma wf_move_player name n : keeps wf (move_player name n) (λ _, True).
Proof. apply frame_move_player; [apply wf_modify|apply wf_vacate_all]. Qed.

Lemma wf_remove_player r : keeps wf (remove_player r) (λ _, True).
Proof. apply frame_remove_player; [apply wf_modify|apply wf_vacate_all]. Qed.

Lemma wf_buy_space name : keeps wf (buy_space name) (λ _, True).
Proof.
  intros s Hwf. split; [|done]. rewrite buy_space_unfold.
  destruct (players s !! name) as [r|] eqn:Hname; [|done].
  destruct (heap s !! r) as [p|]; [|done].
  destruct (py_index _ _) as [k|]; [|done].
  destruct (gameboard s !! k) as [[payout|rent [o|]]|]; try done.
  case_match; [|done]. destruct Hwf as [Hr Ho Hg Hi]. split; simpl; try done.
  - intros name' r' Hname'. rewrite length_alter. eauto.
  - apply Forall_alter.
    + eapply Forall_impl; [done|]. intros sp Hsp o Hown. rewrite length_alter. eauto.
    + intros [|rent' o'] _ _ o; simpl; intros [= <-]. rewrite length_alter. eauto.
  - intros sp Hsp. destruct (decide (k = 0%nat)) as [->|Hne].
    + rewrite list_lookup_alter_eq in Hsp.
      destruct (gameboard s !! 0%nat) as [sp0|] eqn:H0; [|done].
      destruct (Hg sp0 eq_refl) as [payout ->]. simplify_eq/=. by exists payout.
    + rewrite list_lookup_alter_ne in Hsp by done. eauto.
Qed.

Lemma wf_create_player name balance : keeps wf (create_player name balance) (λ _, True).
Proof.
  apply keeps_write. intros s [Hr Ho Hg Hi]. unfold create_player.
  case_match; [done|]. split; simpl; try done.
  - intros name' r'. rewrite length_app; simpl. rewrite lookup_insert.
    case_decide; [intros [= <-]; lia|]. intros ?%Hr. lia.
  - eapply Forall_impl; [done|]. intros sp Hsp o Hown%Hsp.
    rewrite length_app; simpl. lia.
  - intros name1 name2 r. rewrite !lookup_insert.
    repeat case_decide; simplify_eq; try done.
    + intros [= <-] ?%Hr. lia.
    + intros ?%Hr [= <-]. lia.
    + eauto.
Qed.

Lemma wf_append_property rent s :
  wf_started s → wf_started (gameboard_append (PropertySpace rent None) s).2.
Proof.
  intros [[Hr Ho Hg Hi] Hne]. split; [split|]; simpl; try done.
  - apply Forall_app; split; [done|]. by apply Forall_singleton.
  - intros sp. destruct (gameboard s) as [|sp0 board] eqn:Hb; [done|]. simpl. eauto.
  - by destruct (gameboard s).
Qed.

Lemma wf_create_spaces_loop indices rent_amounts :
  keeps wf_started (create_spaces_loop indices rent_amounts) (λ _, True).
Proof.
  induction indices as [|index rest IH]; simpl; [by apply keeps_ret|].
  destruct (rent_amounts !! index) as [rent|]; [|apply keeps_raise].
  eapply keeps_bind; [|intros _ _; apply IH].
  apply keeps_write. intros s. apply wf_append_property.
Qed.

Lemma wf_create_spaces go_payout rent_amounts :
  keeps wf (create_spaces go_payout rent_amounts) (λ _, True).
Proof.
  intros s Hwf. split; [|done].
  unfold create_spaces, mbind, M_bind, gameboard_append. cbv beta iota.
  match goal with |- context [create_spaces_loop ?i ?r ?s1] =>
    destruct (wf_create_spaces_loop i r s1) as [[Hwf1 _] _] end.
  - destruct Hwf as [Hr Ho Hg Hi]. split; [split|]; simpl; try done.
    + apply Forall_app; split; [done|]. by apply Forall_singleton.
    + intros sp. destruct (gameboard s) as [|sp0 board] eqn:Hb; simpl.
      * intros [= <-]. by exists go_payout.
      * intros [= <-]. by apply (Hg sp0).
    + by destruct (gameboard s).
  - done.
Qed.

Lemma wf_exec o s : wf s → wf (exec o s).
Proof.
  destruct o as [go rents|name balance|name|name n|r]; simpl; intros Hs.
  - by apply wf_create_spaces.
  - by apply wf_create_player.
  - by apply wf_buy_space.
  - by apply wf_move_player.
  - by apply wf_remove_player.
Qed.

Lemma wf_run ops s : wf s → wf (run ops s).
Proof.
  revert s. induction ops as [|o ops IH]; intros s Hs; [done|].
  simpl. by apply IH, wf_exec.
Qed.

(** In a well-formed store every registered name has its object. *)
Lemma wf_lookup s name r :
  wf s → players s !! name = Some r → ∃ p, heap s !! r = Some p.
Proof. intros Hwf Hname. apply lookup_lt_is_Some_2. by eapply wf_registered. Qed.

(** ** Claim C1: balances stay non-negative *)

Lemma sub_account_balance_clamps amount p :
  Player.account_balance p < amount →
  Player.account_balance (Player.sub_account_balance amount p) = 0.
Proof.
  intros Hlt. unfold Player.sub_account_balance.
  destruct (Z.gtb_spec (amount - Player.account_balance p) 0); simpl; lia.
Qed.

(** C1, amended.  Take any sequence of calls of [create_spaces],
    [create_player], [buy_space], [move_player] and [remove_player] from
    the initial state in which every [create_spaces] call is given a
    non-negative GO payout and non-negative rents (the 24 it reads).
    Then every registered name has a player object and its account
    balance is non-negative; and [Player.sub_account_balance] sets the
    balance to exactly zero whenever the amount subtracted exceeds it. *)
Theorem balance_never_negative (ops : list op) :
  Forall op_nonneg ops →
  (∀ name r, players (run ops new_game) !! name = Some r →
     ∃ p, heap (run ops new_game) !! r = Some p ∧ 0 ≤ Player.account_balance p) ∧
  (∀ amount p, Player.account_balance p < amount →
     Player.account_balance (Player.sub_account_balance amount p) = 0).
Proof.
  intros Hops. split; [|apply sub_account_balance_clamps].
  intros name r Hname.
  destruct (wf_lookup (run ops new_game) name r) as [p Hp];
    [apply wf_run, wf_new_game|done|].
  exists p; split; [done|].
  destruct (nonneg_run ops new_game Hops nonneg_new_game) as [Hh _].
  by eapply Forall_lookup_1 in Hh.
Qed.

Lemma balance_never_negative_witness :
  Forall op_nonneg (poor_visitor ++ [MovePlayer "B" 1]) ∧
  (∃ p, heap (run (poor_visitor ++ [MovePlayer "B" 1]) new_game) !! 1%nat = Some p ∧
        0 ≤ Player.account_balance p) ∧
  Player.account_balance
    (Player.sub_account_balance 10 (Player.Build "B" 5 1)) = 0.
Proof.
  assert (Hops : Forall op_nonneg (poor_visitor ++ [MovePlayer "B" 1])).
  { repeat constructor; simpl; try lia. }
  destruct (balance_never_negative _ Hops) as [Hbal Hclamp].
  split; [done|]. split.
  - by apply (Hbal "B").
  - by apply Hclamp.
Defined.

(** C1 as stated fails: [create_spaces] accepts any payout, and a wrap
    adds it as it is.  With a GO payout of -1000, A starts with 100,
    walks 6, 6, 6, 6 and 1 spaces, wraps onto GO and holds -900. *)
Lemma negative_payout_gives_negative_balance :
  players (run debt_lap new_game) !! "A" = Some 0%nat ∧
  heap (run debt_lap new_game) !! 0%nat = Some (Player.Build "A" (-900) 0) ∧
  balance_of (run debt_lap new_game) "A" = Some (-900) ∧
  ¬ 0 ≤ -900.
Proof. vm_compute. repeat split; try reflexivity. intros H. by apply H. Qed.

(** ** The equations of [move_player] *)

Lemma list_alter_Some {A} (f : A → A) (l : list A) (i : nat) (x : A) :
  l !! i = Some x → alter f i l = <[i := f x]> l.
Proof.
  intros Hi. apply list_eq. intros j.
  rewrite list_lookup_alter, list_lookup_insert.
  case_decide as Hij; [|by rewrite decide_False by tauto].
  subst j. rewrite Hi. simpl.
  by rewrite decide_True by eauto using lookup_lt_Some.
Qed.

Lemma move_player_record n size p :
  Player.move_player n size p =
  Player.Build (Player.name p) (Player.account_balance p)
               (Player.position (Player.move_player n size p)).
Proof. unfold Player.move_player. by case_match. Qed.

(** A wrap needs a board of more spaces than the move is long. *)
Lemma wrapped_board s p n :
  1 ≤ n → wrapped s p n = true → (0 < length (gameboard s))%nat.
Proof.
  unfold wrapped, new_position_of, Player.move_player. intros Hn.
  case_match; simpl; lia.
Qed.

(** [settle] by cases on the space landed on. *)
Lemma settle_unfold s player p new :
  heap s !! player = Some p →
  settle player new s =
  match space_at s new with
  | None => (Raise IndexError, s)
  | Some (GoSpace _) => (Ok (), s)
  | Some (PropertySpace rent None) => (Ok (), s)
  | Some (PropertySpace rent (Some o)) =>
      if decide (o = player) then (Ok (), s)
      else if Player.account_balance p <? rent then
        (Ok (),
         mkGame (vacate player <$> gameboard s) (players s)
                (alter (Player.sub_account_balance (Player.account_balance p)) player
                   (alter (Player.add_account_balance (Player.account_balance p)) o
                      (heap s))))
      else
        (Ok (),
         mkGame (gameboard s) (players s)
                (alter (Player.sub_account_balance rent) player
                   (alter (Player.add_account_balance rent) o (heap s))))
  end.
Proof.
  intros Hp.
  unfold settle, space_at, gameboard_getitem, deref, modify, remove_player,
    vacate_all, Player.get_account_balance, mbind, M_bind, mret, M_ret, raise.
  simpl. destruct (py_index _ _) as [k|] eqn:Hi; [|done]. simpl.
  destruct (gameboard s !! k) as [[payout|rent [o|]]|] eqn:Hk; simpl; try done;
    rewrite Hi, Hk; [|done].
  case_decide; [done|]. rewrite Hp.
  destruct (Player.account_balance p <? rent); simpl; [|done].
  unfold deref. simpl. by rewrite list_lookup_alter_ne, Hp by done.
Qed.

Lemma vacate_owned r rent : vacate r (PropertySpace rent (Some r)) = PropertySpace rent None.
Proof. simpl. by rewrite decide_True. Qed.

Lemma vacate_not_owned r sp : get_owner sp ≠ Some r → vacate r sp = sp.
Proof. destruct sp as [|rent [o|]]; simpl; try done. intros Ho. rewrite decide_False; congruence. Qed.

Lemma vacate_no_owner r sp : get_owner (vacate r sp) ≠ Some r.
Proof. destruct sp as [|rent [o|]]; simpl; try done. case_decide; simpl; congruence. Qed.

Lemma sub_all_balance amount p :
  amount = Player.account_balance p →
  Player.account_balance (Player.sub_account_balance amount p) = 0.
Proof.
  intros ->. unfold Player.sub_account_balance.
  destruct (Z.gtb_spec (Player.account_balance p - Player.account_balance p) 0); simpl; lia.
Qed.

Lemma sub_rent_balance rent p :
  rent ≤ Player.account_balance p →
  Player.account_balance (Player.sub_account_balance rent p) =
  Player.account_balance p - rent.
Proof.
  intros Hle. unfold Player.sub_account_balance.
  destruct (Z.gtb_spec (rent - Player.account_balance p) 0); simpl; lia.
Qed.

Lemma space_at_lookup s i sp :
  space_at s i = Some sp → ∃ k, gameboard s !! k = Some sp.
Proof. unfold space_at. destruct (py_index _ _) as [k|]; simpl; [eauto|done]. Qed.

Lemma wf_space_owner s i rent o :
  wf s → space_at s i = Some (PropertySpace rent (Some o)) →
  ∃ po, heap s !! o = Some po.
Proof.
  intros Hwf [k Hk]%space_at_lookup. apply lookup_lt_is_Some_2.
  by eapply (Forall_lookup_1 _ _ _ _ (wf_owner s Hwf) Hk).
Qed.

Section Move.
Variables (s : Game) (player_name : string) (number_of_spaces : Z).
Variables (player : ref) (p : Player.t).
Hypothesis Hwf : wf s.
Hypothesis Hname : players s !! player_name = Some player.
Hypothesis Hobj : heap s !! player = Some p.
Hypothesis Hactive : Player.account_balance p ≠ 0.
Hypothesis Hdie : 1 ≤ number_of_spaces ≤ 6.

Lemma advance_eq :
  advance player (Player.position p) number_of_spaces s =
  (Ok (new_position_of s p number_of_spaces),
   after_advance s player p number_of_spaces).
Proof.
  unfold advance, gameboard_len, modify, deref, mbind, M_bind, mret, M_ret. simpl.
  rewrite list_lookup_alter_eq, Hobj. simpl.
  change (Player.get_position (Player.move_player number_of_spaces
            (Z.of_nat (length (gameboard s))) p) <? Player.position p)
    with (wrapped s p number_of_spaces).
  unfold after_advance, moved, go_credit, go_credits, Player.get_position.
  fold (new_position_of s p number_of_spaces).
  destruct (wrapped s p number_of_spaces) eqn:Hw.
  - assert (Hlen : (0 < length (gameboard s))%nat) by (apply (wrapped_board s p number_of_spaces); [lia|done]).
    destruct (gameboard s) as [|sp0 board] eqn:Hboard; [simpl in Hlen; lia|].
    destruct (wf_go s Hwf sp0) as [payout ->]; [by rewrite Hboard|].
    unfold gameboard_getitem, go_payout_of. simpl. rewrite Hboard. simpl.
    do 2 f_equal.
    rewrite (list_alter_Some _ _ _ _ Hobj).
    erewrite list_alter_Some by (apply list_lookup_insert_eq; eauto using lookup_lt_Some).
    rewrite list_insert_insert_eq. f_equal.
    rewrite (move_player_record _ _ p). unfold Player.add_account_balance. simpl.
    unfold new_position_of. rewrite Hboard. f_equal. lia.
  - do 2 f_equal. rewrite (list_alter_Some _ _ _ _ Hobj). f_equal.
    rewrite (move_player_record _ _ p). unfold new_position_of. f_equal. lia.
Qed.

Lemma move_player_eq :
  move_player player_name number_of_spaces s =
  settle player (new_position_of s p number_of_spaces)
         (after_advance s player p number_of_spaces).
Proof.
  unfold move_player, players_getitem, deref, mbind at 1 2, M_bind. simpl.
  rewrite Hname, Hobj. unfold Player.get_account_balance.
  destruct (Z.eqb_spec (Player.account_balance p) 0); [done|].
  destruct (Z.ltb_spec number_of_spaces 1); [lia|].
  destruct (Z.gtb_spec number_of_spaces 6); [lia|]. simpl.
  unfold mbind, M_bind, Player.get_position. by rewrite advance_eq.
Qed.

Lemma after_advance_player :
  heap (after_advance s player p number_of_spaces) !! player =
  Some (moved s p number_of_spaces).
Proof. simpl. apply list_lookup_insert_eq. eauto using lookup_lt_Some. Qed.

Lemma after_advance_other r :
  r ≠ player → heap (after_advance s player p number_of_spaces) !! r = heap s !! r.
Proof. intros Hr. simpl. by apply list_lookup_insert_ne. Qed.

(** [move_player] by cases on the space landed on. *)
Lemma move_player_cases :
  move_player player_name number_of_spaces s =
  let s1 := after_advance s player p number_of_spaces in
  let remaining := Player.account_balance (moved s p number_of_spaces) in
  match space_at s (new_position_of s p number_of_spaces) with
  | None => (Raise IndexError, s1)
  | Some (GoSpace _) => (Ok (), s1)
  | Some (PropertySpace rent None) => (Ok (), s1)
  | Some (PropertySpace rent (Some o)) =>
      if decide (o = player) then (Ok (), s1)
      else if remaining <? rent then
        (Ok (),
         mkGame (vacate player <$> gameboard s) (players s)
                (alter (Player.sub_account_balance remaining) player
                   (alter (Player.add_account_balance remaining) o (heap s1))))
      else
        (Ok (),
         mkGame (gameboard s) (players s)
                (alter (Player.sub_account_balance rent) player
                   (alter (Player.add_account_balance rent) o (heap s1))))
  end.
Proof.
  rewrite move_player_eq.
  by rewrite (settle_unfold _ _ _ _ after_advance_player).
Qed.

(** The state after a move that bankrupts the mover. *)
Lemma move_player_bankrupt rent owner :
  space_at s (new_position_of s p number_of_spaces)
    = Some (PropertySpace rent (Some owner)) →
  owner ≠ player →
  Player.account_balance p + go_credit s p number_of_spaces < rent →
  let remaining := Player.account_balance p + go_credit s p number_of_spaces in
  move_player player_name number_of_spaces s =
  (Ok (),
   mkGame (vacate player <$> gameboard s) (players s)
          (alter (Player.sub_account_balance remaining) player
             (alter (Player.add_account_balance remaining) owner
                (<[player := moved s p number_of_spaces]> (heap s))))).
Proof.
  intros Hspace Hother Hpoor. rewrite move_player_cases, Hspace. simpl.
  rewrite decide_False by done.
  by destruct (Z.ltb_spec (Player.account_balance p + go_credit s p number_of_spaces) rent);
    [|lia].
Qed.

(** The state after a move that pays the rent in full. *)
Lemma move_player_pays rent owner :
  space_at s (new_position_of s p number_of_spaces)
    = Some (PropertySpace rent (Some owner)) →
  owner ≠ player →
  rent ≤ Player.account_balance p + go_credit s p number_of_spaces →
  move_player player_name number_of_spaces s =
  (Ok (),
   mkGame (gameboard s) (players s)
          (alter (Player.sub_account_balance rent) player
             (alter (Player.add_account_balance rent) owner
                (<[player := moved s p number_of_spaces]> (heap s))))).
Proof.
  intros Hspace Hother Hrich. rewrite move_player_cases, Hspace. simpl.
  rewrite decide_False by done.
  by destruct (Z.ltb_spec (Player.account_balance p + go_credit s p number_of_spaces) rent);
    [lia|].
Qed.

(** The state after a move that lands on GO, on an unowned space or on
    a space of the mover. *)
Lemma move_player_free sp :
  space_at s (new_position_of s p number_of_spaces) = Some sp →
  get_owner sp = None ∨ get_owner sp = Some player →
  move_player player_name number_of_spaces s =
  (Ok (), after_advance s player p number_of_spaces).
Proof.
  intros Hspace Hfree. rewrite move_player_cases, Hspace. simpl.
  destruct sp as [payout|rent [o|]]; simpl in *; try done.
  destruct Hfree as [|[= ->]]; [done|]. by rewrite decide_True.
Qed.

(** Balances read through the two updates of a rent payment. *)
Lemma settled_player f g owner b ps :
  owner ≠ player →
  balance_at (mkGame b ps (alter f player (alter g owner
                (<[player := moved s p number_of_spaces]> (heap s))))) player =
  Player.account_balance (f (moved s p number_of_spaces)).
Proof.
  intros Hother. unfold balance_at. simpl.
  rewrite list_lookup_alter_eq, list_lookup_alter_ne by done.
  by rewrite list_lookup_insert_eq by eauto using lookup_lt_Some.
Qed.

Lemma settled_owner f g owner po b ps :
  owner ≠ player → heap s !! owner = Some po →
  balance_at (mkGame b ps (alter f player (alter g owner
                (<[player := moved s p number_of_spaces]> (heap s))))) owner =
  Player.account_balance (g po).
Proof.
  intros Hother Hpo. unfold balance_at. simpl.
  rewrite list_lookup_alter_ne, list_lookup_alter_eq by done.
  by rewrite list_lookup_insert_ne, Hpo by done.
Qed.

Lemma settled_other f g owner r b ps :
  r ≠ player → r ≠ owner →
  heap (mkGame b ps (alter f player (alter g owner
          (<[player := moved s p number_of_spaces]> (heap s))))) !! r = heap s !! r.
Proof.
  intros Hp Ho. simpl.
  by rewrite !list_lookup_alter_ne, list_lookup_insert_ne by done.
Qed.

Lemma after_advance_balance :
  balance_at (after_advance s player p number_of_spaces) player =
  Player.account_balance p + go_credit s p number_of_spaces.
Proof. unfold balance_at. by rewrite after_advance_player. Qed.

(** ** Claim C2: a mover who cannot pay the rent goes bankrupt *)

(** C2.  A registered player with a nonzero balance moves 1 to 6 spaces
    and lands on a property owned by a different player.  When the
    mover's balance, with the GO payout of this move added, is strictly
    less than the rent, [move_player] returns normally, the owner's
    balance grows by exactly that remaining balance, the mover's balance
    is exactly 0, and every property the mover owned is unowned
    afterwards (its rent kept, its owner unset), the other spaces being
    unchanged. *)
Theorem bankrupt_mover_forfeits (rent : Z) (owner : ref) :
  space_at s (new_position_of s p number_of_spaces)
    = Some (PropertySpace rent (Some owner)) →
  owner ≠ player →
  Player.account_balance p + go_credit s p number_of_spaces < rent →
  ∃ s', move_player player_name number_of_spaces s = (Ok (), s') ∧
    balance_at s' owner =
      balance_at s owner + (Player.account_balance p + go_credit s p number_of_spaces) ∧
    balance_at s' player = 0 ∧
    Forall (λ sp, get_owner sp ≠ Some player) (gameboard s') ∧
    (∀ k rent', gameboard s !! k = Some (PropertySpace rent' (Some player)) →
                gameboard s' !! k = Some (PropertySpace rent' None)) ∧
    (∀ k sp, gameboard s !! k = Some sp → get_owner sp ≠ Some player →
             gameboard s' !! k = Some sp).
Proof.
  intros Hspace Hother Hpoor.
  destruct (wf_space_owner _ _ _ _ Hwf Hspace) as [po Hpo].
  eexists. split; [by apply (move_player_bankrupt rent owner)|]. split; [|split; [|split; [|split]]].
  - rewrite (settled_owner _ _ _ po) by done.
    unfold balance_at. rewrite Hpo. done.
  - rewrite settled_player by done. by apply sub_all_balance.
  - simpl. apply Forall_fmap, Forall_true. intros sp. apply vacate_no_owner.
  - intros k rent' Hk. simpl. by rewrite list_lookup_fmap, Hk, <- (vacate_owned player rent').
  - intros k sp Hk Hsp. simpl. rewrite list_lookup_fmap, Hk. simpl.
    by rewrite vacate_not_owned.
Qed.

(** ** Claim C4: one GO payout per wrap *)

(** C4.  A registered player with a nonzero balance moves 1 to 6
    spaces.  The move credits the GO payout once when the new position
    is numerically less than the old one, and not at all otherwise: the
    number of credits is 1 or 0, it is 1 exactly when the new position is
    less than the old one, and the mover's balance after the call is the
    old balance plus that many payouts minus what landing costs. *)
Theorem go_payout_credited_once :
  (go_credits s p number_of_spaces = 1 ∨ go_credits s p number_of_spaces = 0) ∧
  (go_credits s p number_of_spaces = 1 ↔
     new_position_of s p number_of_spaces < Player.position p) ∧
  balance_at (move_player player_name number_of_spaces s).2 player =
    Player.account_balance p
    + go_credits s p number_of_spaces * go_payout_of s
    - landing_charge s player p number_of_spaces.
Proof.
  split; [|split].
  - unfold go_credits. destruct (wrapped _ _ _); auto.
  - unfold go_credits, wrapped.
    destruct (Z.ltb_spec (new_position_of s p number_of_spaces) (Player.position p));
      split; (done || lia).
  - fold (go_credit s p number_of_spaces). unfold landing_charge.
    destruct (space_at s (new_position_of s p number_of_spaces))
      as [[payout|rent [o|]]|] eqn:Hspace.
    + erewrite move_player_free by (done || by left).
      simpl snd. rewrite after_advance_balance. lia.
    + destruct (decide (o = player)) as [->|Hother].
      * erewrite move_player_free by (done || by right).
        simpl snd. rewrite after_advance_balance. lia.
      * simpl Player.account_balance.
        destruct (Z.lt_ge_cases
                    (Player.account_balance p + go_credit s p number_of_spaces) rent).
        -- rewrite (move_player_bankrupt rent o) by done. simpl snd.
           rewrite settled_player by done.
           rewrite sub_all_balance by done. lia.
        -- rewrite (move_player_pays rent o) by done. simpl snd.
           rewrite settled_player by done.
           rewrite sub_rent_balance by done. simpl. lia.
    + erewrite move_player_free by (done || by left).
      simpl snd. rewrite after_advance_balance. lia.
    + rewrite move_player_cases, Hspace. simpl snd.
      rewrite after_advance_balance. lia.
Qed.

(** ** Claim C6: the rent is transferred exactly *)

(** C6.  A registered player with a nonzero balance moves 1 to 6
    spaces.  (a) Landing on a property owned by a different player with
    a balance (GO payout of this move included) of at least the rent,
    the mover's balance decreases by exactly the rent, the owner's
    increases by exactly the rent, and no other player object and no
    space changes.  (b) Landing on GO, on an unowned property or on a
    property of the mover, the call changes nothing but the mover's
    position and GO credit: no landing effect on any balance. *)
Theorem rent_transferred_exactly :
  (∀ rent owner,
     space_at s (new_position_of s p number_of_spaces)
       = Some (PropertySpace rent (Some owner)) →
     owner ≠ player →
     rent ≤ Player.account_balance p + go_credit s p number_of_spaces →
     ∃ s', move_player player_name number_of_spaces s = (Ok (), s') ∧
       balance_at s' player =
         Player.account_balance p + go_credit s p number_of_spaces - rent ∧
       balance_at s' owner = balance_at s owner + rent ∧
       (∀ r, r ≠ player → r ≠ owner → heap s' !! r = heap s !! r) ∧
       gameboard s' = gameboard s) ∧
  (∀ sp,
     space_at s (new_position_of s p number_of_spaces) = Some sp →
     get_owner sp = None ∨ get_owner sp = Some player →
     ∃ s', move_player player_name number_of_spaces s = (Ok (), s') ∧
       balance_at s' player =
         Player.account_balance p + go_credit s p number_of_spaces ∧
       (∀ r, r ≠ player → heap s' !! r = heap s !! r) ∧
       gameboard s' = gameboard s).
Proof.
  split.
  - intros rent owner Hspace Hother Hrich.
    destruct (wf_space_owner _ _ _ _ Hwf Hspace) as [po Hpo].
    eexists. split; [by apply move_player_pays|]. split; [|split; [|split]].
    + rewrite settled_player by done. by rewrite sub_rent_balance.
    + rewrite (settled_owner _ _ _ po) by done. unfold balance_at. by rewrite Hpo.
    + intros r Hr1 Hr2. by apply settled_other.
    + done.
  - intros sp Hspace Hfree.
    eexists. split; [by eapply move_player_free|]. split; [|split].
    + apply after_advance_balance.
    + apply after_advance_other.
    + done.
Qed.

End Move.

(** Scenario 3 of the specification: B holds 5 and lands on the
    property of A, whose rent is 10. *)
Lemma bankrupt_mover_forfeits_witness :
  ∃ s', move_player "B" 1 (run poor_visitor new_game) = (Ok (), s') ∧
    balance_at s' 0%nat = 50 + 5 ∧ balance_at s' 1%nat = 0.
Proof.
  destruct (bankrupt_mover_forfeits (run poor_visitor new_game) "B" 1 1%nat
              (Player.Build "B" 5 0)) with (rent := 10) (owner := 0%nat)
    as (s' & Hrun & Howner & Hmover & _).
  - apply wf_run, wf_new_game.
  - reflexivity.
  - reflexivity.
  - simpl. lia.
  - lia.
  - reflexivity.
  - lia.
  - vm_compute. reflexivity.
  - exists s'. split; [exact Hrun|]. split; [exact Howner|exact Hmover].
Defined.

(** Scenario 4 of the specification, from position 24: A moves 3, wraps
    to position 2 and is credited 50 once. *)
Lemma go_payout_credited_once_witness :
  balance_at (move_player "A" 3 (run lap new_game)).2 0%nat = 100 + 1 * 50 - 0.
Proof.
  destruct (go_payout_credited_once (run lap new_game) "A" 3 0%nat
              (Player.Build "A" 100 24)) as (_ & _ & Hbalance).
  - apply wf_run, wf_new_game.
  - reflexivity.
  - reflexivity.
  - simpl. lia.
  - lia.
  - exact Hbalance.
Defined.

(** Scenario 2 of the specification: B holds 100 and pays A the rent 10. *)
Lemma rent_transferred_exactly_witness :
  ∃ s', move_player "B" 1 (run opening new_game) = (Ok (), s') ∧
    balance_at s' 1%nat = 100 + 0 - 10 ∧ balance_at s' 0%nat = 50 + 10.
Proof.
  destruct (rent_transferred_exactly (run opening new_game) "B" 1 1%nat
              (Player.Build "B" 100 0)) as [Hpay _].
  - apply wf_run, wf_new_game.
  - reflexivity.
  - reflexivity.
  - simpl. lia.
  - lia.
  - destruct (Hpay 10 0%nat) as (s' & Hrun & Hmover & Howner & _).
    + reflexivity.
    + lia.
    + vm_compute. discriminate.
    + exists s'. split; [exact Hrun|]. split; [exact Hmover|exact Howner].
Defined.

(** ** Money across the registered players *)

Lemma sum_over_delta f g l :
  sum_over g l = sum_over f l + sum_over (λ x, g x - f x) l.
Proof. unfold sum_over. induction l as [|x l IH]; csimpl; lia. Qed.

Lemma sum_over_zero d l : (∀ x, x ∈ l → d x = 0) → sum_over d l = 0.
Proof.
  unfold sum_over. induction l as [|x l IH]; csimpl; intros Hd; [done|].
  rewrite IH, Hd; [done|by left|]. intros y Hy. apply Hd. by right.
Qed.

Lemma sum_over_one d l a :
  NoDup l → a ∈ l → (∀ x, x ∈ l → x ≠ a → d x = 0) → sum_over d l = d a.
Proof.
  intros Hl. induction Hl as [|x l Hx Hl IH]; intros Hin Hd; [by inv Hin|].
  change (sum_over d (x :: l)) with (d x + sum_over d l).
  destruct (decide (x = a)) as [->|Hxa].
  - rewrite sum_over_zero; [lia|]. intros y Hy. apply Hd; [by right|congruence].
  - apply elem_of_cons in Hin as [->|Hin]; [done|].
    rewrite IH, Hd; [lia|by left|done|done|]. intros y Hy. apply Hd. by right.
Qed.

Lemma sum_over_two d l a b :
  NoDup l → a ≠ b → a ∈ l → b ∈ l →
  (∀ x, x ∈ l → x ≠ a → x ≠ b → d x = 0) → sum_over d l = d a + d b.
Proof.
  intros Hl Hab. induction Hl as [|x l Hx Hl IH]; intros Hina Hinb Hd; [by inv Hina|].
  change (sum_over d (x :: l)) with (d x + sum_over d l).
  apply elem_of_cons in Hina as [->|Hina]; apply elem_of_cons in Hinb as [->|Hinb];
    try done.
  - rewrite (sum_over_one d l b); [lia|done|done|].
    intros y Hy Hyb. apply Hd; [by right|congruence|done].
  - rewrite (sum_over_one d l a); [lia|done|done|].
    intros y Hy Hya. apply Hd; [by right|done|congruence].
  - rewrite IH, Hd; [lia|by left|congruence|congruence|done|done|].
    intros y Hy. apply Hd. by right.
Qed.

(** The player objects of the registry, each once. *)
Lemma total_balance_sum s :
  total_balance s = sum_over (balance_at s) (map_to_list (players s)).*2.
Proof. unfold total_balance, sum_over. by rewrite <- list_fmap_compose. Qed.

Lemma registered_elem s r : registered s r ↔ r ∈ (map_to_list (players s)).*2.
Proof.
  rewrite list_elem_of_fmap. split.
  - intros [name Hname]. exists (name, r). by rewrite elem_of_map_to_list.
  - intros [[name r'] [-> Hin%elem_of_map_to_list]]. by exists name.
Qed.

Lemma wf_NoDup_refs s : wf s → NoDup (map_to_list (players s)).*2.
Proof.
  intros Hwf. apply NoDup_fmap_2_strong; [|apply NoDup_map_to_list].
  intros [name1 r1] [name2 r2] H1%elem_of_map_to_list H2%elem_of_map_to_list.
  simpl. intros <-. f_equal. by eapply wf_inj.
Qed.

Lemma total_balance_one s s' a :
  wf s → players s' = players s → registered s a →
  (∀ r, r ≠ a → balance_at s' r = balance_at s r) →
  total_balance s' = total_balance s + (balance_at s' a - balance_at s a).
Proof.
  intros Hwf Hplayers Ha Hsame. rewrite !total_balance_sum, Hplayers.
  rewrite (sum_over_delta (balance_at s) (balance_at s')). f_equal.
  apply (sum_over_one (λ x, balance_at s' x - balance_at s x));
    [by apply wf_NoDup_refs|by apply registered_elem|].
  intros x _ Hx. rewrite Hsame by done. lia.
Qed.

Lemma total_balance_two s s' a b :
  wf s → players s' = players s → registered s a → registered s b → a ≠ b →
  (∀ r, r ≠ a → r ≠ b → balance_at s' r = balance_at s r) →
  total_balance s' =
  total_balance s + (balance_at s' a - balance_at s a) + (balance_at s' b - balance_at s b).
Proof.
  intros Hwf Hplayers Ha Hb Hab Hsame. rewrite !total_balance_sum, Hplayers.
  rewrite (sum_over_delta (balance_at s) (balance_at s')), <- Z.add_assoc. f_equal.
  apply (sum_over_two (λ x, balance_at s' x - balance_at s x));
    [by apply wf_NoDup_refs|done|by apply registered_elem|by apply registered_elem|].
  intros x _ Hxa Hxb. rewrite Hsame by done. lia.
Qed.

Lemma go_credit_eq s p n :
  go_credit s p n =
  if new_position_of s p n <? Player.position p then go_payout_of s else 0.
Proof.
  unfold go_credit, go_credits, wrapped.
  destruct (new_position_of s p n <? Player.position p); lia.
Qed.

Section Conservation.
Variables (s : Game) (player_name : string) (number_of_spaces : Z).
Variables (player : ref) (p : Player.t).
Hypothesis Hwf : wf s.
Hypothesis Hname : players s !! player_name = Some player.
Hypothesis Hobj : heap s !! player = Some p.
Hypothesis Hactive : Player.account_balance p ≠ 0.
Hypothesis Hdie : 1 ≤ number_of_spaces ≤ 6.

Lemma total_balance_after_advance :
  total_balance (after_advance s player p number_of_spaces) =
  total_balance s + go_credit s p number_of_spaces.
Proof.
  rewrite (total_balance_one s _ player); [|done|done|by exists player_name|].
  - rewrite after_advance_balance by done.
    unfold balance_at. rewrite Hobj. simpl. lia.
  - intros r Hr. unfold balance_at. by rewrite after_advance_other.
Qed.

Lemma total_balance_settled board f g owner b c :
  owner ≠ player → registered s owner →
  Player.account_balance (f (moved s p number_of_spaces)) =
    Player.account_balance p + c - b →
  (∀ po, Player.account_balance (g po) = Player.account_balance po + b) →
  total_balance
    (mkGame board (players s)
            (alter f player (alter g owner
               (<[player := moved s p number_of_spaces]> (heap s))))) =
  total_balance s + c.
Proof.
  intros Hother Hreg Hf Hg.
  assert (∃ po, heap s !! owner = Some po) as [po Hpo].
  { destruct Hreg as [name Hreg]. by eapply wf_lookup. }
  rewrite (total_balance_two s _ player owner);
    [|done|done|by exists player_name|done|done|].
  - rewrite settled_player by done.
    erewrite settled_owner by done.
    unfold balance_at. rewrite Hobj, Hpo, Hf, Hg. simpl. lia.
  - intros r Hr1 Hr2. unfold balance_at. by rewrite settled_other.
Qed.

(** ** Claim C10: what a move does to the total of the balances *)

(** C10, amended.  A registered player with a nonzero balance moves 1 to
    6 spaces.  Provided the owner of the space landed on, when there is
    one other than the mover, is a registered player object, the sum of
    the balances of the registered players changes by exactly the GO
    payout when the new position is less than the old one, and by
    exactly 0 otherwise. *)
Theorem move_conserves_money :
  (∀ rent owner,
     space_at s (new_position_of s p number_of_spaces)
       = Some (PropertySpace rent (Some owner)) →
     owner ≠ player → registered s owner) →
  total_balance (move_player player_name number_of_spaces s).2 =
  total_balance s +
  (if new_position_of s p number_of_spaces <? Player.position p
   then go_payout_of s else 0).
Proof.
  intros Hreg. rewrite <- go_credit_eq.
  destruct (space_at s (new_position_of s p number_of_spaces))
    as [[payout|rent [o|]]|] eqn:Hspace.
  - erewrite move_player_free by (done || by left).
    apply total_balance_after_advance.
  - destruct (decide (o = player)) as [->|Hother].
    { erewrite move_player_free by (done || by right).
      apply total_balance_after_advance. }
    specialize (Hreg rent o eq_refl Hother).
    destruct (Z.lt_ge_cases
                (Player.account_balance p + go_credit s p number_of_spaces) rent).
    + erewrite (move_player_bankrupt _ _ _ _ _ Hwf Hname Hobj Hactive Hdie rent o)
        by done.
      simpl snd.
      apply (total_balance_settled _ _ _ o
               (Player.account_balance p + go_credit s p number_of_spaces));
        [done|done| |done].
      rewrite sub_all_balance by done. lia.
    + erewrite (move_player_pays _ _ _ _ _ Hwf Hname Hobj Hactive Hdie rent o)
        by done.
      simpl snd. apply (total_balance_settled _ _ _ o rent); [done|done| |done].
      rewrite sub_rent_balance by done. simpl. lia.
  - erewrite move_player_free by (done || by left).
    apply total_balance_after_advance.
  - rewrite (move_player_cases _ _ _ _ _ Hwf Hname Hobj Hactive Hdie), Hspace.
    apply total_balance_after_advance.
Qed.

End Conservation.

(** B pays A the rent 10: the total stays 150 + 0. *)
Lemma move_conserves_money_witness :
  total_balance (move_player "B" 1 (run opening new_game)).2 =
  total_balance (run opening new_game) + 0.
Proof.
  apply (move_conserves_money (run opening new_game) "B" 1 1%nat
           (Player.Build "B" 100 0)).
  - apply wf_run, wf_new_game.
  - reflexivity.
  - reflexivity.
  - simpl. lia.
  - lia.
  - intros rent owner Hspace _. vm_compute in Hspace.
    injection Hspace as _ <-. exists "A". reflexivity.
Defined.

(** C10 as stated fails once a name was registered again: space 1 still
    belongs to the player object that A named before, B pays that object
    the rent without wrapping (position 0 to 1), and 10 leave the
    registered players. *)
Lemma money_leaves_registered_players :
  let s := run reregistered new_game in
  balance_of s "B" = Some 100 ∧
  position_of s "B" = Some 0 ∧
  position_of (move_player "B" 1 s).2 "B" = Some 1 ∧
  total_balance s = 200 ∧
  total_balance (move_player "B" 1 s).2 = 190 ∧
  total_balance (move_player "B" 1 s).2 ≠ total_balance s + 0.
Proof. vm_compute. repeat split; congruence. Qed.

(** ** Claim C3: when a purchase succeeds *)

(** C3.  For a registered player, [buy_space] returns [True] exactly
    when the space at the player's position is a property without owner
    and the balance is strictly greater than five times the rent; it
    then takes exactly that price from the balance and makes the player
    the owner of that space, changing nothing else.  On any other space
    at the player's position (GO, an owned property, or a price not
    strictly below the balance, equality included) it returns [False]
    and changes nothing. *)
Theorem buy_space_succeeds_iff (s : Game) (player_name : string)
    (player : ref) (p : Player.t) :
  players s !! player_name = Some player →
  heap s !! player = Some p →
  ((buy_space player_name s).1 = Ok true ↔
     ∃ rent, space_at s (Player.position p) = Some (PropertySpace rent None) ∧
             rent * 5 < Player.account_balance p) ∧
  (∀ rent,
     space_at s (Player.position p) = Some (PropertySpace rent None) →
     rent * 5 < Player.account_balance p →
     ∃ k s', py_index (length (gameboard s)) (Player.position p) = Some k ∧
       buy_space player_name s = (Ok true, s') ∧
       heap s' !! player =
         Some (Player.Build (Player.name p) (Player.account_balance p - rent * 5)
                            (Player.position p)) ∧
       gameboard s' !! k = Some (PropertySpace rent (Some player)) ∧
       (∀ j, j ≠ k → gameboard s' !! j = gameboard s !! j) ∧
       (∀ r, r ≠ player → heap s' !! r = heap s !! r) ∧
       players s' = players s) ∧
  (∀ sp,
     space_at s (Player.position p) = Some sp →
     (∀ rent, sp = PropertySpace rent None → Player.account_balance p ≤ rent * 5) →
     buy_space player_name s = (Ok false, s)).
Proof.
  intros Hname Hobj. rewrite buy_space_unfold, Hname, Hobj.
  unfold space_at. destruct (py_index _ _) as [k|] eqn:Hk; simpl.
  2: { split; [|split]; try done. split; [done|]. by intros (rent & [=] & _). }
  destruct (gameboard s !! k) as [sp|] eqn:Hsp.
  2: { split; [|split]; try done. split; [done|]. by intros (rent & [=] & _). }
  split; [|split].
  - destruct sp as [payout|rent [o|]]; simpl;
      try (split; [done|]; by intros (rent' & [=] & _)).
    destruct (Z.gtb_spec (Player.account_balance p) (rent * 5)); simpl.
    + split; [|done]. intros _. by exists rent.
    + split; [done|]. intros (rent' & [= <-] & Hlt). lia.
  - intros rent [= ->] Hlt.
    destruct (Z.gtb_spec (Player.account_balance p) (rent * 5)); [|lia].
    exists k. eexists. split; [done|]. split; [done|]. simpl.
    split; [|split; [|split; [|split]]].
    + rewrite list_lookup_alter_eq, Hobj. simpl. f_equal.
      unfold Player.sub_account_balance.
      by destruct (Z.gtb_spec (rent * 5 - Player.account_balance p) 0); [lia|].
    + by rewrite list_lookup_alter_eq, Hsp.
    + intros j Hj. by rewrite list_lookup_alter_ne.
    + intros r Hr. by rewrite list_lookup_alter_ne.
    + done.
  - intros sp' [= <-] Hcase. destruct sp as [payout|rent [o|]]; try done.
    specialize (Hcase rent eq_refl).
    by destruct (Z.gtb_spec (Player.account_balance p) (rent * 5)); [lia|].
Qed.

(** Scenario 1 of the specification: A stands on space 1 (rent 10, price
    50) with 100 and buys it. *)
Lemma buy_space_succeeds_iff_witness :
  ∃ s', buy_space "A" (run (take 4 opening) new_game) = (Ok true, s') ∧
    heap s' !! 0%nat = Some (Player.Build "A" (100 - 10 * 5) 1) ∧
    gameboard s' !! 1%nat = Some (PropertySpace 10 (Some 0%nat)).
Proof.
  destruct (buy_space_succeeds_iff (run (take 4 opening) new_game) "A" 0%nat
              (Player.Build "A" 100 1)) as (_ & Hbuy & _).
  - vm_compute; reflexivity.
  - vm_compute; reflexivity.
  - destruct (Hbuy 10) as (k & s' & Hk & Hrun & Hbal & Hown & _).
    + vm_compute; reflexivity.
    + simpl; lia.
    + vm_compute in Hk. injection Hk as <-. exists s'.
      split; [exact Hrun|]. split; [exact Hbal|exact Hown].
Defined.

(** ** Claim C9: looking a player up *)

(** C9, amended.  For a name that the registry does not hold,
    [get_player_account_balance] and [get_player_current_position] raise
    the [KeyError] of the dictionary subscript and leave the state as it
    was; for a registered name they return the player's balance and
    position and leave the state as it was. *)
Theorem lookups_are_pure (s : Game) (player_name : string) :
  (players s !! player_name = None →
     get_player_account_balance player_name s = (Raise KeyError, s) ∧
     get_player_current_position player_name s = (Raise KeyError, s)) ∧
  (∀ player p,
     players s !! player_name = Some player → heap s !! player = Some p →
     get_player_account_balance player_name s = (Ok (Player.account_balance p), s) ∧
     get_player_current_position player_name s = (Ok (Player.position p), s)).
Proof.
  unfold get_player_account_balance, get_player_current_position,
    players_getitem, deref, mbind, M_bind, mret, M_ret.
  split.
  - intros ->. done.
  - intros player p -> . simpl. by intros ->.
Qed.

Lemma lookups_are_pure_witness :
  get_player_account_balance "C" (run opening new_game)
    = (Raise KeyError, run opening new_game) ∧
  get_player_current_position "A" (run opening new_game)
    = (Ok 1, run opening new_game).
Proof.
  destruct (lookups_are_pure (run opening new_game) "C") as [Hmissing _].
  destruct (lookups_are_pure (run opening new_game) "A") as [_ Hfound].
  split.
  - apply Hmissing. vm_compute; reflexivity.
  - apply (Hfound 0%nat (Player.Build "A" 50 1)); vm_compute; reflexivity.
Defined.

(** C9 as stated fails: the lookup of an unknown name ends in the
    dictionary's [KeyError], not in a [NotFoundError]. *)
Lemma unknown_player_is_a_KeyError :
  players new_game !! "C" = None ∧
  (get_player_account_balance "C" new_game).1 = Raise KeyError ∧
  (get_player_account_balance "C" new_game).1 ≠ Raise NotFoundError ∧
  (get_player_current_position "C" new_game).1 = Raise KeyError ∧
  (get_player_current_position "C" new_game).1 ≠ Raise NotFoundError.
Proof. vm_compute. repeat split; congruence. Qed.

(** No computation of the model raises [NotFoundError]: the exception
    is absent from every primitive. *)
Lemma lookup_never_NotFoundError s player_name :
  (get_player_account_balance player_name s).1 ≠ Raise NotFoundError ∧
  (get_player_current_position player_name s).1 ≠ Raise NotFoundError.
Proof.
  unfold get_player_account_balance, get_player_current_position,
    players_getitem, deref, mbind, M_bind, mret, M_ret.
  destruct (players s !! player_name) as [player|]; simpl; [|done].
  by destruct (heap s !! player).
Qed.

(** ** Claim C7: the winner *)

Lemma balance_of_Some s name b :
  balance_of s name = Some b ↔
  ∃ r p, players s !! name = Some r ∧ heap s !! r = Some p ∧
         Player.account_balance p = b.
Proof.
  unfold balance_of. split.
  - intros Hb. destruct (players s !! name) as [r|] eqn:Hr; simpl in Hb; [|done].
    destruct (heap s !! r) as [p|] eqn:Hp; simpl in Hb; [|done].
    injection Hb as <-. eauto.
  - intros (r & p & -> & Hp & <-). simpl. by rewrite Hp.
Qed.

Lemma still_in_active s name : still_in s name = true ↔ active s name.
Proof.
  unfold still_in, active. destruct (balance_of s name) as [b|] eqn:Hb.
  - apply balance_of_Some in Hb as (r & p & Hr & Hp & <-).
    rewrite negb_true_iff, Z.eqb_neq. split; [eauto 6|].
    intros (r' & p' & Hr' & Hp' & Hne). by simplify_eq.
  - split; [done|]. intros (r & p & Hr & Hp & _).
    assert (balance_of s name = Some (Player.account_balance p)) as Hsome
      by (apply balance_of_Some; eauto).
    congruence.
Qed.

Lemma get_player_account_balance_eq s name b :
  balance_of s name = Some b → get_player_account_balance name s = (Ok b, s).
Proof.
  intros (r & p & Hr & Hp & <-)%balance_of_Some.
  unfold get_player_account_balance, players_getitem, deref, mbind, M_bind.
  by rewrite Hr, Hp.
Qed.

Lemma players_not_out_loop_eq s names players_not_out :
  (∀ name, name ∈ names → is_Some (balance_of s name)) →
  players_not_out_loop names players_not_out s =
  (Ok (players_not_out ++ filter (λ name, still_in s name) names), s).
Proof.
  revert players_not_out.
  induction names as [|name names IH]; intros acc Hall; simpl.
  - by rewrite app_nil_r.
  - destruct (Hall name) as [b Hb]; [by left|].
    unfold mbind, M_bind. rewrite (get_player_account_balance_eq _ _ _ Hb).
    assert (Hs : still_in s name = negb (b =? 0))
      by (unfold still_in; by rewrite Hb).
    rewrite filter_cons. destruct (b =? 0); simpl in Hs.
    + rewrite Hs. simpl. apply IH. intros name' Hin. apply Hall. by right.
    + rewrite Hs. simpl.
      rewrite IH by (intros name' Hin; apply Hall; by right).
      by rewrite <- app_assoc.
Qed.

Lemma wf_balance_of s name :
  wf s → name ∈ (map_to_list (players s)).*1 → is_Some (balance_of s name).
Proof.
  intros Hwf [[name' r] [-> Hin%elem_of_map_to_list]]%list_elem_of_fmap. simpl.
  destruct (wf_lookup s name' r Hwf Hin) as [p Hp].
  exists (Player.account_balance p). apply balance_of_Some. eauto.
Qed.

(** [check_game_over] reads the state and answers from the list of the
    names still in the game. *)
Lemma check_game_over_eq s :
  wf s →
  check_game_over s =
  (Ok match filter (λ name, still_in s name) (map_to_list (players s)).*1 with
      | [winner] => winner
      | _ => ""
      end, s).
Proof.
  intros Hwf. unfold check_game_over, players_keys, mbind at 1, M_bind.
  unfold mbind, M_bind.
  rewrite players_not_out_loop_eq by (intros; by apply wf_balance_of).
  simpl. by destruct (filter _ _) as [|winner [|]].
Qed.

Lemma active_elem s name :
  active s name ↔
  name ∈ filter (λ name, still_in s name) (map_to_list (players s)).*1.
Proof.
  rewrite list_elem_of_filter, Is_true_true, still_in_active. split; [|tauto].
  intros Hactive. split; [done|]. destruct Hactive as (r & p & Hr & _).
  apply list_elem_of_fmap. exists (name, r). by rewrite elem_of_map_to_list.
Qed.

Lemma NoDup_singleton_elem {A} (l : list A) (w : A) :
  NoDup l → w ∈ l → (∀ x, x ∈ l → x = w) → l = [w].
Proof.
  intros Hl Hw Hall. destruct Hl as [|x l Hx Hl]; [by inv Hw|].
  assert (x = w) as -> by (apply Hall; by left).
  destruct l as [|y l]; [done|].
  assert (y = w) as -> by (apply Hall; right; by left).
  destruct Hx. by left.
Qed.

(** C7.  In a well-formed store [check_game_over] raises nothing and
    changes nothing.  When exactly one registered player has a nonzero
    balance it returns that player's name; in every other case (no
    registered player, none with a nonzero balance, or two or more) it
    returns the empty string; and a non-empty result is always the name
    of the only registered player with a nonzero balance. *)
Theorem check_game_over_winner (s : Game) :
  wf s →
  (∀ winner,
     active s winner → (∀ name, active s name → name = winner) →
     check_game_over s = (Ok winner, s)) ∧
  ((¬ ∃ winner, active s winner ∧ ∀ name, active s name → name = winner) →
     check_game_over s = (Ok "", s)) ∧
  (∀ result,
     (check_game_over s).1 = Ok result → result ≠ "" →
     active s result ∧ ∀ name, active s name → name = result).
Proof.
  intros Hwf. rewrite check_game_over_eq by done.
  assert (Hnodup : NoDup (filter (λ name, still_in s name)
                            (map_to_list (players s)).*1))
    by apply NoDup_filter, NoDup_fst_map_to_list.
  split; [|split].
  - intros winner Hwinner Honly.
    rewrite (NoDup_singleton_elem _ winner Hnodup); [done|by apply active_elem|].
    intros name Hname%active_elem. by apply Honly.
  - intros Hnone.
    destruct (filter _ _) as [|winner [|]] eqn:Hfilter; try done.
    destruct Hnone. exists winner. split.
    + apply active_elem. rewrite Hfilter. by left.
    + intros name Hname%active_elem. rewrite Hfilter in Hname.
      by apply list_elem_of_singleton in Hname.
  - simpl. intros result [= <-] Hne.
    destruct (filter _ _) as [|winner [|]] eqn:Hfilter; try done. split.
    + apply active_elem. rewrite Hfilter. by left.
    + intros name Hname%active_elem. rewrite Hfilter in Hname.
      by apply list_elem_of_singleton in Hname.
Qed.

(** Scenario 5 of the specification: B went bankrupt on the property of
    A, and A is the winner. *)
Lemma check_game_over_winner_witness :
  check_game_over (run (poor_visitor ++ [MovePlayer "B" 1]) new_game) =
  (Ok "A", run (poor_visitor ++ [MovePlayer "B" 1]) new_game).
Proof.
  destruct (check_game_over_winner (run (poor_visitor ++ [MovePlayer "B" 1]) new_game))
    as [Hwin _]; [apply wf_run, wf_new_game|].
  apply Hwin.
  - exists 0%nat, (Player.Build "A" 55 1). vm_compute. repeat split; congruence.
  - intros name (r & p & Hr%elem_of_map_to_list & Hp & Hne).
    vm_compute in Hr.
    inversion Hr as [|? ? ? Hr']; subst; [done|].
    inversion Hr' as [|? ? ? Hr'']; subst; [|inversion Hr''].
    vm_compute in Hp. injection Hp as <-. by destruct Hne.
Defined.

(** ** Positions on the 25-space board *)

Lemma move_player_mod p n :
  on_board p → 1 ≤ n ≤ 6 →
  Player.position (Player.move_player n 25 p) = (Player.position p + n) mod 25.
Proof.
  unfold on_board, Player.move_player. intros Hp Hn.
  destruct (Z.geb_spec (Player.position p + n) 25); simpl.
  - apply (Z.mod_unique _ _ 1); lia.
  - symmetry. apply Z.mod_small. lia.
Qed.

Lemma move_player_on_board p n :
  on_board p → 1 ≤ n ≤ 6 → on_board (Player.move_player n 25 p).
Proof.
  intros Hp Hn. unfold on_board. rewrite move_player_mod by done.
  pose proof (Z.mod_pos_bound (Player.position p + n) 25). lia.
Qed.

Lemma sub_account_balance_position amount p :
  Player.position (Player.sub_account_balance amount p) = Player.position p.
Proof. unfold Player.sub_account_balance. by case_match. Qed.

Lemma board_ready_modify r f :
  (∀ p, on_board p → on_board (f p)) → keeps board_ready (modify r f) (λ _, True).
Proof.
  intros Hf. apply keeps_write. intros s [Hlen Hpos]. split; [done|]. simpl.
  apply Forall_alter; [done|]. intros p _. apply Hf.
Qed.

Lemma board_ready_add r amount :
  keeps board_ready (modify r (Player.add_account_balance amount)) (λ _, True).
Proof. by apply board_ready_modify. Qed.

Lemma board_ready_sub r amount :
  keeps board_ready (modify r (Player.sub_account_balance amount)) (λ _, True).
Proof.
  apply board_ready_modify. unfold on_board. intros p.
  by rewrite sub_account_balance_position.
Qed.

Lemma board_ready_vacate_all r : keeps board_ready (vacate_all r) (λ _, True).
Proof.
  apply keeps_write. intros s [Hlen Hpos]. split; [|done]. simpl.
  by rewrite length_fmap.
Qed.

Lemma board_ready_remove_player r : keeps board_ready (remove_player r) (λ _, True).
Proof.
  unfold remove_player.
  repeat first [apply board_ready_sub | apply board_ready_vacate_all | frame_step].
Qed.

Lemma board_ready_settle player new : keeps board_ready (settle player new) (λ _, True).
Proof.
  unfold settle.
  repeat first [apply board_ready_sub | apply board_ready_add
               | apply board_ready_remove_player | frame_step].
Qed.

Lemma board_ready_advance player old n :
  1 ≤ n ≤ 6 → keeps board_ready (advance player old n) (λ _, True).
Proof.
  intros Hn. unfold advance.
  eapply keeps_bind with (φ := λ size, size = 25).
  { apply keeps_read; [done|]. intros s size [Hlen _] [= <-]. by rewrite Hlen. }
  intros size ->.
  eapply keeps_bind with (φ := λ _, True).
  { apply board_ready_modify. intros p Hp. by apply move_player_on_board. }
  intros _ _. repeat first [apply board_ready_add | frame_step].
Qed.

Lemma board_ready_move_player name n : keeps board_ready (move_player name n) (λ _, True).
Proof.
  unfold move_player.
  eapply keeps_bind with (φ := λ _, True); [frame_step|]. intros player _.
  eapply keeps_bind with (φ := λ _, True); [frame_step|]. intros p _.
  case_match; [frame_step|].
  destruct (Z.ltb_spec n 1); simpl; [frame_step|].
  destruct (Z.gtb_spec n 6); simpl; [frame_step|].
  eapply keeps_bind with (φ := λ _, True); [apply board_ready_advance; lia|].
  intros new _. apply board_ready_settle.
Qed.

Lemma board_ready_buy_space name : keeps board_ready (buy_space name) (λ _, True).
Proof.
  intros s [Hlen Hpos]. split; [|done]. rewrite buy_space_unfold.
  repeat case_match; try done. split; simpl.
  - by rewrite length_alter.
  - apply Forall_alter; [done|]. intros q _. unfold on_board.
    by rewrite sub_account_balance_position.
Qed.

Lemma board_ready_create_player name balance :
  keeps board_ready (create_player name balance) (λ _, True).
Proof.
  apply keeps_write. intros s [Hlen Hpos]. unfold create_player.
  case_match; [done|]. split; [done|]. simpl.
  apply Forall_app; split; [done|]. apply Forall_singleton.
  unfold on_board. simpl. lia.
Qed.

Lemma board_ready_exec o s : ¬ is_create_spaces o → board_ready s → board_ready (exec o s).
Proof.
  destruct o as [go rents|name balance|name|name n|r]; simpl; intros Ho Hs.
  - by destruct Ho.
  - by apply board_ready_create_player.
  - by apply board_ready_buy_space.
  - by apply board_ready_move_player.
  - by apply board_ready_remove_player.
Qed.

Lemma board_ready_run ops s :
  Forall (λ o, ¬ is_create_spaces o) ops → board_ready s → board_ready (run ops s).
Proof.
  intros Hops. revert s. induction Hops as [|o ops Ho _ IH]; intros s Hs; [done|].
  simpl. by apply IH, board_ready_exec.
Qed.

(** Before the board is built nobody leaves position 0. *)
Lemma at_start_new_game : at_start new_game.
Proof. by split. Qed.

Lemma at_start_exec o s :
  ¬ is_create_spaces o → ¬ is_move_player o → at_start s → at_start (exec o s).
Proof.
  destruct o as [go rents|name balance|name|name n|r]; simpl;
    intros Hcs Hmp [Hboard Hpos]; try done.
  - unfold create_player. case_match; [done|]. split; [done|]. simpl.
    apply Forall_app; split; [done|]. by apply Forall_singleton.
  - rewrite buy_space_unfold. repeat case_match; try done. split; simpl.
    + by rewrite Hboard.
    + apply Forall_alter; [done|]. intros q _.
      by rewrite sub_account_balance_position.
  - unfold remove_player, deref, modify, vacate_all, mbind, M_bind.
    destruct (heap s !! r) as [p|]; simpl; [|done]. split; simpl.
    + by rewrite Hboard.
    + apply Forall_alter; [done|]. intros q _.
      by rewrite sub_account_balance_position.
Qed.

Lemma at_start_run ops s :
  Forall (λ o, ¬ is_create_spaces o ∧ ¬ is_move_player o) ops →
  at_start s → at_start (run ops s).
Proof.
  intros Hops. revert s. induction Hops as [|o ops [Ho1 Ho2] _ IH]; intros s Hs; [done|].
  simpl. by apply IH, at_start_exec.
Qed.

(** With enough rents the loop of [create_spaces] appends one space per
    index and touches nothing else. *)
Lemma create_spaces_loop_length indices rent_amounts s :
  Forall (λ index, (index < length rent_amounts)%nat) indices →
  let s' := (create_spaces_loop indices rent_amounts s).2 in
  length (gameboard s') = (length (gameboard s) + length indices)%nat ∧
  heap s' = heap s.
Proof.
  intros Hi. revert s. induction Hi as [|index rest Hindex _ IH]; intros s; simpl.
  - split; [lia|done].
  - destruct (lookup_lt_is_Some_2 rent_amounts index Hindex) as [rent ->].
    unfold mbind, M_bind, gameboard_append. cbv beta iota.
    destruct (IH (mkGame (gameboard s ++ [PropertySpace rent None]) (players s) (heap s)))
      as [Hlen Hheap].
    simpl in *. rewrite Hlen, Hheap, length_app. simpl. split; [lia|done].
Qed.

Lemma board_ready_create_spaces go_payout rent_amounts s :
  (24 ≤ length rent_amounts)%nat → at_start s →
  board_ready (exec (CreateSpaces go_payout rent_amounts) s).
Proof.
  intros Hlen [Hboard Hpos]. simpl.
  unfold create_spaces, mbind, M_bind, gameboard_append. cbv beta iota.
  match goal with |- context [create_spaces_loop ?i ?r ?s1] =>
    destruct (create_spaces_loop_length i r s1) as [Hl Hh] end.
  { apply Forall_forall. intros index Hin%elem_of_seq. lia. }
  split.
  - rewrite Hl. simpl gameboard. by rewrite Hboard, length_seq.
  - rewrite Hh. simpl. eapply Forall_impl; [done|].
    unfold on_board. intros p ->. lia.
Qed.

Lemma run_app ops1 ops2 s : run (ops1 ++ ops2) s = run ops2 (run ops1 s).
Proof. unfold run. by rewrite foldl_app. Qed.

Lemma protocol_board_ready ops : protocol ops → board_ready (run ops new_game).
Proof.
  intros (setup & go_payout & rent_amounts & rest & -> & Hsetup & Hlen & Hrest).
  rewrite run_app. simpl. apply board_ready_run; [done|].
  apply board_ready_create_spaces; [done|].
  by apply at_start_run, at_start_new_game.
Qed.

Section MovePosition.
Variables (s : Game) (player_name : string) (number_of_spaces : Z).
Variables (player : ref) (p : Player.t).
Hypothesis Hwf : wf s.
Hypothesis Hname : players s !! player_name = Some player.
Hypothesis Hobj : heap s !! player = Some p.
Hypothesis Hactive : Player.account_balance p ≠ 0.
Hypothesis Hdie : 1 ≤ number_of_spaces ≤ 6.

(** Whatever the landing does, the mover ends on the new position. *)
Lemma move_player_position :
  position_of (move_player player_name number_of_spaces s).2 player_name =
  Some (new_position_of s p number_of_spaces).
Proof.
  rewrite (move_player_cases _ _ _ _ _ Hwf Hname Hobj Hactive Hdie).
  assert (Hs1 : position_of (after_advance s player p number_of_spaces) player_name =
                Some (new_position_of s p number_of_spaces)).
  { unfold position_of. simpl players. rewrite Hname. simpl.
    by rewrite list_lookup_insert_eq by eauto using lookup_lt_Some. }
  cbv zeta.
  destruct (space_at s _) as [[payout|rent [o|]]|]; try done.
  case_decide; [done|].
  case_match; unfold position_of; simpl; rewrite Hname; simpl;
    rewrite list_lookup_alter_eq, list_lookup_alter_ne by done;
    rewrite list_lookup_insert_eq by eauto using lookup_lt_Some;
    simpl; by rewrite sub_account_balance_position.
Qed.

End MovePosition.

(** ** Claim C5: moving is addition modulo 25 *)

(** When the driver follows its protocol ([create_spaces] called once,
    with at least 24 rents, before any [move_player]) the board has 25
    spaces and every player object stands on a position in [0, 24]; a
    call [move_player name n] with n in [1, 6] by a registered player
    with nonzero balance leaves that player on position (old + n) mod 25
    and every player object on a position in [0, 24]. *)
Theorem position_advances_mod_25 (ops : list op) :
  protocol ops →
  board_ready (run ops new_game) ∧
  (∀ player_name n player p,
     players (run ops new_game) !! player_name = Some player →
     heap (run ops new_game) !! player = Some p →
     Player.account_balance p ≠ 0 →
     1 ≤ n ≤ 6 →
     position_of (move_player player_name n (run ops new_game)).2 player_name =
       Some ((Player.position p + n) mod 25) ∧
     Forall on_board (heap (move_player player_name n (run ops new_game)).2)) ∧
  (∀ p n, on_board p → 1 ≤ n ≤ 6 →
     Player.position (Player.move_player n 25 p) = (Player.position p + n) mod 25).
Proof.
  intros Hops. pose proof (protocol_board_ready ops Hops) as Hready.
  split; [done|]. split; [|apply move_player_mod].
  intros player_name n player p Hname Hobj Hactive Hn. split.
  - rewrite (move_player_position _ _ _ player p);
      [|apply wf_run, wf_new_game|done..].
    unfold new_position_of. destruct Hready as [-> Hpos]. f_equal.
    apply move_player_mod; [|done]. by eapply Forall_lookup_1 in Hpos.
  - by apply (board_ready_move_player player_name n).
Qed.

Lemma position_advances_mod_25_witness :
  position_of (move_player "A" 3 (run lap new_game)).2 "A" = Some ((24 + 3) mod 25).
Proof.
  destruct (position_advances_mod_25 lap) as (_ & Hmove & _).
  - exists [], 50, (replicate 24 10), (tail lap).
    split; [reflexivity|]. split; [constructor|]. split; [vm_compute; lia|].
    repeat constructor; simpl; tauto.
  - apply (Hmove "A" 3 0%nat (Player.Build "A" 100 24)).
    + vm_compute; reflexivity.
    + vm_compute; reflexivity.
    + simpl; lia.
    + lia.
Defined.

(** C5, amended.  On the 25-space board, a call [move_player name n]
    with n in [1, 6] by a registered player with nonzero balance who
    stands on a position in [0, 24] leaves that player on position
    (old + n) mod 25, which lies in [0, 24]; when every player object
    stood on a position in [0, 24] before the call, every one does after
    it; and [Player.move_player]'s single conditional subtraction of the
    board size 25 is what computes (old + n) mod 25 there. *)
Theorem move_lands_modulo_25 (s : Game) (player_name : string) (n : Z)
    (player : ref) (p : Player.t) :
  wf s →
  length (gameboard s) = 25%nat →
  players s !! player_name = Some player →
  heap s !! player = Some p →
  Player.account_balance p ≠ 0 →
  1 ≤ n ≤ 6 →
  0 ≤ Player.position p ≤ 24 →
  position_of (move_player player_name n s).2 player_name =
    Some ((Player.position p + n) mod 25) ∧
  0 ≤ (Player.position p + n) mod 25 ≤ 24 ∧
  (Forall (λ q, 0 ≤ Player.position q ≤ 24) (heap s) →
   Forall (λ q, 0 ≤ Player.position q ≤ 24) (heap (move_player player_name n s).2)) ∧
  Player.position (Player.move_player n 25 p) = (Player.position p + n) mod 25.
Proof.
  intros Hwf Hlen Hname Hobj Hactive Hn Hp.
  assert (Hmod : Player.position (Player.move_player n 25 p) =
                 (Player.position p + n) mod 25) by (by apply move_player_mod).
  split; [|split; [|split; [|done]]].
  - rewrite (move_player_position s player_name n player p) by done.
    unfold new_position_of. rewrite Hlen. by f_equal.
  - pose proof (Z.mod_pos_bound (Player.position p + n) 25). lia.
  - intros Hall. by apply (board_ready_move_player player_name n s).
Qed.

(** Scenario 4 of the specification, from position 24: A moves 3 and
    lands on (24 + 3) mod 25 = 2. *)
Lemma move_lands_modulo_25_witness :
  position_of (move_player "A" 3 (run lap new_game)).2 "A" = Some ((24 + 3) mod 25).
Proof.
  apply (move_lands_modulo_25 (run lap new_game) "A" 3 0%nat (Player.Build "A" 100 24)).
  - apply wf_run, wf_new_game.
  - vm_compute; reflexivity.
  - vm_compute; reflexivity.
  - vm_compute; reflexivity.
  - simpl; lia.
  - lia.
  - simpl; lia.
Defined.

(** C5 as stated fails for a player who is off the board.  Ten moves of
    6 before [create_spaces] each raise [IndexError] after advancing A
    (a board of size 0 subtracts nothing), so A stands on 60 when the 25
    spaces are built; the next move of 1 subtracts 25 once and leaves A
    on 36, which is neither (60 + 1) mod 25 = 11 nor within [0, 24]. *)
Lemma off_board_player_stays_off_board :
  length (gameboard (run early_moves new_game)) = 25%nat ∧
  position_of (run early_moves new_game) "A" = Some 60 ∧
  balance_of (run early_moves new_game) "A" = Some 100 ∧
  position_of (move_player "A" 1 (run early_moves new_game)).2 "A" = Some 36 ∧
  (60 + 1) mod 25 = 11 ∧
  position_of (move_player "A" 1 (run early_moves new_game)).2 "A"
    ≠ Some ((60 + 1) mod 25) ∧
  ¬ 36 ≤ 24.
Proof.
  vm_compute. repeat split; try reflexivity; try discriminate.
  intros H. by apply H.
Qed.

(** ** Claim C8: who owns the properties *)

Lemma owner_at_Some s k o :
  owner_at s k = Some o ↔ ∃ sp, gameboard s !! k = Some sp ∧ get_owner sp = Some o.
Proof.
  unfold owner_at. destruct (gameboard s !! k) as [sp|]; simpl.
  - split; [eauto|]. by intros (sp' & [= <-] & Ho).
  - split; [done|]. by intros (sp' & [=] & _).
Qed.

Lemma owners_registered_modify r f s :
  owners_registered s → owners_registered (modify r f s).2.
Proof. done. Qed.

Lemma owners_registered_vacate_all r s :
  owners_registered s → owners_registered (vacate_all r s).2.
Proof.
  intros Ho. unfold owners_registered. simpl. apply Forall_fmap.
  eapply Forall_impl; [done|]. intros sp Hsp o Hown%get_owner_vacate. by apply Hsp.
Qed.

Lemma owners_registered_buy_space name :
  keeps owners_registered (buy_space name) (λ _, True).
Proof.
  intros s Ho. split; [|done]. rewrite buy_space_unfold.
  destruct (players s !! name) as [r|] eqn:Hname; [|done].
  repeat case_match; try done. unfold owners_registered. simpl.
  apply Forall_alter; [done|].
  intros [|rent' o'] _ _ o; simpl; intros [= <-]. by exists name.
Qed.

Lemma owners_registered_create_spaces_loop indices rent_amounts :
  keeps owners_registered (create_spaces_loop indices rent_amounts) (λ _, True).
Proof.
  induction indices as [|index rest IH]; simpl; [by apply keeps_ret|].
  destruct (rent_amounts !! index) as [rent|]; [|apply keeps_raise].
  eapply keeps_bind; [|intros _ _; apply IH].
  apply keeps_write. intros s Ho. unfold owners_registered. simpl.
  apply Forall_app; split; [done|]. by apply Forall_singleton.
Qed.

Lemma owners_registered_create_spaces go_payout rent_amounts :
  keeps owners_registered (create_spaces go_payout rent_amounts) (λ _, True).
Proof.
  unfold create_spaces.
  eapply keeps_bind; [|intros _ _; apply owners_registered_create_spaces_loop].
  apply keeps_write. intros s Ho. unfold owners_registered. simpl.
  apply Forall_app; split; [done|]. by apply Forall_singleton.
Qed.

Lemma owners_registered_create_player name balance s :
  (0 < balance → players s !! name = None) →
  owners_registered s → owners_registered (create_player name balance s).2.
Proof.
  intros Hfresh Ho. unfold create_player.
  destruct (Z.leb_spec balance 0); [done|].
  unfold owners_registered. simpl. eapply Forall_impl; [done|].
  intros sp Hsp o [name' Hname']%Hsp. exists name'. simpl.
  rewrite lookup_insert_ne; [done|]. intros ->. rewrite Hfresh in Hname'; [done|lia].
Qed.

Lemma owners_registered_exec o s :
  match o with
  | CreatePlayer name balance => 0 < balance → players s !! name = None
  | _ => True
  end →
  owners_registered s → owners_registered (exec o s).
Proof.
  destruct o as [go rents|name balance|name|name n|r]; simpl; intros Hfresh Hs.
  - by apply owners_registered_create_spaces.
  - by apply owners_registered_create_player.
  - by apply owners_registered_buy_space.
  - by apply (frame_move_player owners_registered owners_registered_modify
                owners_registered_vacate_all).
  - by apply (frame_remove_player owners_registered owners_registered_modify
                owners_registered_vacate_all).
Qed.

Lemma owners_registered_run ops s :
  no_overwrite ops s → owners_registered s → owners_registered (run ops s).
Proof.
  revert s. induction ops as [|o ops IH]; intros s Hops Hs; [done|].
  destruct Hops as [Ho Hops]. simpl. apply IH; [done|].
  by apply owners_registered_exec.
Qed.

(** C8, amended.  After any sequence of calls from the initial state a
    space has at most one owner, and the owner of a property, when set,
    is a player object that [create_player] made.  That object is the
    player currently registered under some name provided no
    [create_player] call of the sequence stored a player under a name
    the registry already held. *)
Theorem owners_are_player_objects (ops : list op) :
  (∀ k o, owner_at (run ops new_game) k = Some o →
     ∃ p, heap (run ops new_game) !! o = Some p) ∧
  (∀ k o1 o2, owner_at (run ops new_game) k = Some o1 →
     owner_at (run ops new_game) k = Some o2 → o1 = o2) ∧
  (no_overwrite ops new_game →
     ∀ k o, owner_at (run ops new_game) k = Some o → registered (run ops new_game) o).
Proof.
  split; [|split].
  - intros k o (sp & Hk & Hown)%owner_at_Some.
    apply lookup_lt_is_Some_2.
    assert (Hwf : wf (run ops new_game)) by apply wf_run, wf_new_game.
    by eapply (Forall_lookup_1 _ _ _ _ (wf_owner _ Hwf) Hk).
  - congruence.
  - intros Hops k o (sp & Hk & Hown)%owner_at_Some.
    assert (Hreg : owners_registered (run ops new_game)).
    { apply owners_registered_run; [done|]. constructor. }
    by eapply (Forall_lookup_1 _ _ _ _ Hreg Hk).
Qed.

Lemma owners_are_player_objects_witness :
  registered (run opening new_game) 0%nat.
Proof.
  destruct (owners_are_player_objects opening) as (_ & _ & Hreg).
  apply (Hreg ltac:(vm_compute; repeat split; reflexivity) 1%nat 0%nat).
  vm_compute; reflexivity.
Defined.

(** C8 as stated fails when [create_player] stores a new player under
    the name of one that owns a space: space 1 still belongs to the old
    player object, which no name of the registry refers to any more. *)
Lemma replaced_owner_is_not_registered :
  owner_at (run reregistered new_game) 1%nat = Some 0%nat ∧
  players (run reregistered new_game) !! "A" = Some 2%nat ∧
  ¬ registered (run reregistered new_game) 0%nat.
Proof.
  split; [vm_compute; reflexivity|]. split; [vm_compute; reflexivity|].
  intros Hreg%registered_elem. vm_compute in Hreg.
  inversion Hreg as [|? ? ? Hreg']; subst.
  inversion Hreg' as [|? ? ? Hreg'']; subst. inversion Hreg''.
Qed.

(** A rent equal to the whole balance is paid in full and leaves the
    payer at 0 without vacating the payer's own spaces: after
    [exact_rent], A has no money and still owns space 1. *)
Example owner_left_without_money :
  owner_at (run exact_rent new_game) 1%nat = Some 0%nat ∧
  players (run exact_rent new_game) !! "A" = Some 0%nat ∧
  balance_of (run exact_rent new_game) "A" = Some 0.
Proof. vm_compute. repeat split; reflexivity. Qed.

(** ** The exceptions the methods raise

    On a well-formed store the only exceptions are Python's own
    [KeyError] (unknown name) and [IndexError] (no such space); the
    model's [DanglingRef] does not occur. *)

Lemma buy_space_raises s name e :
  wf s → (buy_space name s).1 = Raise e → e = KeyError ∨ e = IndexError.
Proof.
  intros Hwf. rewrite buy_space_unfold.
  destruct (players s !! name) as [r|] eqn:Hname; [|intros [= <-]; by left].
  destruct (wf_lookup s name r Hwf Hname) as [p ->].
  repeat case_match; simpl; intros [= <-]; by right.
Qed.

Lemma move_player_raises s name n e :
  wf s → (move_player name n s).1 = Raise e → e = KeyError ∨ e = IndexError.
Proof.
  intros Hwf.
  destruct (players s !! name) as [r|] eqn:Hname.
  2: { unfold move_player, players_getitem, mbind, M_bind. rewrite Hname.
       intros [= <-]. by left. }
  destruct (wf_lookup s name r Hwf Hname) as [p Hp].
  destruct (decide (Player.account_balance p = 0)) as [Hzero|Hactive].
  { unfold move_player, players_getitem, deref, mbind, M_bind,
      Player.get_account_balance.
    rewrite Hname, Hp, Hzero. done. }
  destruct (decide (1 ≤ n ≤ 6)) as [Hn|Hn].
  - rewrite (move_player_cases s name n r p) by done. cbv zeta.
    repeat case_match; simpl; intros [= <-]; by right.
  - unfold move_player, players_getitem, deref, mbind, M_bind,
      Player.get_account_balance.
    rewrite Hname, Hp. destruct (Player.account_balance p =? 0); [done|].
    destruct (Z.ltb_spec n 1); [done|]. destruct (Z.gtb_spec n 6); [done|]. lia.
Qed.

(* ================================================================== *)
(** * Further properties of the methods *)

(** ** [create_spaces] *)

Lemma create_spaces_loop_enough n : ∀ i rent_amounts s,
  (i + n ≤ length rent_amounts)%nat →
  create_spaces_loop (seq i n) rent_amounts s =
  (Ok (), mkGame (gameboard s ++ (fresh_property <$> take n (drop i rent_amounts)))
                 (players s) (heap s)).
Proof.
  induction n as [|n IH]; intros i rent_amounts s Hlen; simpl.
  - rewrite app_nil_r. by destruct s.
  - destruct (lookup_lt_is_Some_2 rent_amounts i) as [rent Hrent]; [lia|].
    rewrite Hrent. unfold mbind, M_bind, gameboard_append. cbv beta iota.
    rewrite IH by lia. simpl gameboard. simpl players. simpl heap.
    rewrite (drop_S _ _ _ Hrent). simpl. by rewrite <- app_assoc.
Qed.

Lemma create_spaces_loop_short n : ∀ i rent_amounts s,
  (i ≤ length rent_amounts < i + n)%nat →
  create_spaces_loop (seq i n) rent_amounts s =
  (Raise IndexError,
   mkGame (gameboard s ++ (fresh_property <$> drop i rent_amounts))
          (players s) (heap s)).
Proof.
  induction n as [|n IH]; intros i rent_amounts s Hlen; [lia|]. simpl.
  destruct (rent_amounts !! i) as [rent|] eqn:Hrent.
  - unfold mbind, M_bind, gameboard_append. cbv beta iota.
    apply lookup_lt_Some in Hrent as Hi.
    rewrite IH by lia. simpl gameboard. simpl players. simpl heap.
    rewrite (drop_S _ _ _ Hrent). simpl. by rewrite <- app_assoc.
  - apply lookup_ge_None in Hrent. rewrite drop_ge by done. simpl.
    rewrite app_nil_r. by destruct s.
Qed.

(** X1.  Given at least 24 rents, [create_spaces] returns normally and
    appends exactly 25 spaces to the board it finds: the GO space with
    the given payout, then one unowned property for each of the first 24
    rents, in order.  Rents beyond the 24th are ignored, and players and
    earlier spaces are left as they were. *)
Theorem create_spaces_builds_board (go_payout : Z) (rent_amounts : list Z) (s : Game) :
  (24 ≤ length rent_amounts)%nat →
  create_spaces go_payout rent_amounts s =
    (Ok (),
     mkGame (gameboard s ++ GoSpace go_payout :: (fresh_property <$> take 24 rent_amounts))
            (players s) (heap s)) ∧
  length (gameboard (create_spaces go_payout rent_amounts s).2) =
    (length (gameboard s) + 25)%nat.
Proof.
  intros Hlen.
  assert (Heq : create_spaces go_payout rent_amounts s =
    (Ok (),
     mkGame (gameboard s ++ GoSpace go_payout :: (fresh_property <$> take 24 rent_amounts))
            (players s) (heap s))).
  { unfold create_spaces, mbind, M_bind, gameboard_append. cbv beta iota.
    rewrite create_spaces_loop_enough by (simpl; lia).
    simpl gameboard. simpl players. simpl heap. rewrite drop_0.
    by rewrite <- app_assoc. }
  split; [done|]. rewrite Heq. simpl.
  rewrite length_app. simpl. rewrite length_fmap, length_take. lia.
Qed.

Lemma create_spaces_builds_board_witness :
  length (gameboard (create_spaces 50 (replicate 30 10) new_game).2) = (0 + 25)%nat.
Proof.
  apply (create_spaces_builds_board 50 (replicate 30 10) new_game).
  vm_compute. lia.
Defined.

(** X2.  Given fewer than 24 rents, [create_spaces] raises [IndexError],
    but only after it has appended the GO space and one property for
    every rent it was given: the board is left partly built. *)
Theorem create_spaces_short_list (go_payout : Z) (rent_amounts : list Z) (s : Game) :
  (length rent_amounts < 24)%nat →
  create_spaces go_payout rent_amounts s =
    (Raise IndexError,
     mkGame (gameboard s ++ GoSpace go_payout :: (fresh_property <$> rent_amounts))
            (players s) (heap s)).
Proof.
  intros Hlen. unfold create_spaces, mbind, M_bind, gameboard_append. cbv beta iota.
  rewrite create_spaces_loop_short by (simpl; lia).
  simpl gameboard. simpl players. simpl heap. rewrite drop_0.
  by rewrite <- app_assoc.
Qed.

Lemma create_spaces_short_list_witness :
  create_spaces 50 [10; 20] new_game =
  (Raise IndexError, mkGame [GoSpace 50; PropertySpace 10 None; PropertySpace 20 None] ∅ []).
Proof. apply (create_spaces_short_list 50 [10; 20] new_game). simpl. lia. Defined.

(** ** [create_player] *)

(** X3.  [create_player] with a balance of 0 or less does nothing.  With
    a positive balance the name is registered: looking it up afterwards
    gives that balance and position 0, every other name keeps its player,
    every player object that existed is still there unchanged (also the
    one the name referred to before), and the board is untouched. *)
Theorem create_player_registers (name : string) (account_balance : Z) (s : Game) :
  (account_balance ≤ 0 → create_player name account_balance s = (Ok (), s)) ∧
  (0 < account_balance →
   ∃ s', create_player name account_balance s = (Ok (), s') ∧
     get_player_account_balance name s' = (Ok account_balance, s') ∧
     get_player_current_position name s' = (Ok 0, s') ∧
     (∀ name', name' ≠ name → players s' !! name' = players s !! name') ∧
     (∀ r p, heap s !! r = Some p → heap s' !! r = Some p) ∧
     gameboard s' = gameboard s).
Proof.
  unfold create_player. split; intros Hbal.
  - by destruct (Z.leb_spec account_balance 0); [|lia].
  - destruct (Z.leb_spec account_balance 0); [lia|].
    eexists. split; [done|].
    unfold get_player_account_balance, get_player_current_position,
      players_getitem, deref, mbind, M_bind, mret, M_ret. simpl.
    rewrite lookup_insert_eq. simpl. rewrite list_lookup_middle by done. simpl.
    split; [done|]. split; [done|]. split; [|split; [|done]].
    + intros name' Hne. by rewrite lookup_insert_ne.
    + intros r p Hr. by apply lookup_app_l_Some.
Qed.

Lemma create_player_registers_witness :
  ∃ s', create_player "C" 70 (run opening new_game) = (Ok (), s') ∧
    get_player_account_balance "C" s' = (Ok 70, s').
Proof.
  destruct (create_player_registers "C" 70 (run opening new_game)) as [_ Hnew].
  destruct Hnew as (s' & Hrun & Hbal & _); [lia|].
  exists s'. split; [exact Hrun|exact Hbal].
Defined.

(** ** [move_player]: the calls that do nothing, and the call that fails *)

(** X4.  [move_player] for a name that is not registered raises
    [KeyError] and changes nothing.  For a registered player it returns
    without any effect when the player's balance is 0, and when the
    number of spaces is below 1 or above 6. *)
Theorem move_player_does_nothing (player_name : string) (number_of_spaces : Z)
    (s : Game) :
  (players s !! player_name = None →
     move_player player_name number_of_spaces s = (Raise KeyError, s)) ∧
  (∀ player p,
     players s !! player_name = Some player → heap s !! player = Some p →
     Player.account_balance p = 0 ∨ number_of_spaces < 1 ∨ 6 < number_of_spaces →
     move_player player_name number_of_spaces s = (Ok (), s)).
Proof.
  unfold move_player, players_getitem, deref, mbind, M_bind, mret, M_ret,
    Player.get_account_balance.
  split.
  - by intros ->.
  - intros player p -> . simpl. intros -> Hcase.
    destruct (Z.eqb_spec (Player.account_balance p) 0); [done|].
    destruct (Z.ltb_spec number_of_spaces 1); [done|].
    destruct (Z.gtb_spec number_of_spaces 6); [done|]. lia.
Qed.

Lemma move_player_does_nothing_witness :
  move_player "A" 7 (run opening new_game) = (Ok (), run opening new_game) ∧
  move_player "C" 1 (run opening new_game) = (Raise KeyError, run opening new_game).
Proof.
  destruct (move_player_does_nothing "A" 7 (run opening new_game)) as [_ Hskip].
  destruct (move_player_does_nothing "C" 1 (run opening new_game)) as [Hmissing _].
  split.
  - apply (Hskip 0%nat (Player.Build "A" 50 1)); [vm_compute; reflexivity..|lia].
  - apply Hmissing. vm_compute; reflexivity.
Defined.

Lemma move_player_size_0 n p :
  Player.move_player n 0 p =
  Player.Build (Player.name p) (Player.account_balance p) (Player.position p + n).
Proof.
  unfold Player.move_player. cbv zeta.
  destruct (Player.position p + n >=? 0); [|done]. f_equal. lia.
Qed.

Lemma py_index_empty i : py_index 0 i = None.
Proof.
  unfold py_index. change (Z.of_nat 0) with 0. change (- 0) with 0.
  by destruct (Z.leb_spec 0 i), (Z.ltb_spec i 0); simpl; try lia.
Qed.

(** X5.  Moving before the board exists fails half way: on an empty
    board a move of 1 to 6 spaces by a registered player with nonzero
    balance raises [IndexError], yet the player's position has already
    been advanced by the number of spaces (nothing is subtracted for a
    board of size 0); the balance is unchanged. *)
Theorem move_player_without_board (player_name : string) (number_of_spaces : Z)
    (s : Game) (player : ref) (p : Player.t) :
  wf s →
  players s !! player_name = Some player →
  heap s !! player = Some p →
  Player.account_balance p ≠ 0 →
  1 ≤ number_of_spaces ≤ 6 →
  gameboard s = [] →
  move_player player_name number_of_spaces s =
  (Raise IndexError,
   mkGame [] (players s)
          (<[player := Player.Build (Player.name p) (Player.account_balance p)
                                    (Player.position p + number_of_spaces)]> (heap s))).
Proof.
  intros Hwf Hname Hobj Hactive Hn Hboard.
  rewrite (move_player_cases s player_name number_of_spaces player p) by done.
  cbv zeta.
  assert (Hnew : new_position_of s p number_of_spaces =
                 Player.position p + number_of_spaces).
  { unfold new_position_of. rewrite Hboard. simpl length.
    change (Z.of_nat 0) with 0. by rewrite move_player_size_0. }
  assert (Hcredit : go_credit s p number_of_spaces = 0).
  { unfold go_credit, go_credits, wrapped. rewrite Hnew.
    by destruct (Z.ltb_spec (Player.position p + number_of_spaces) (Player.position p));
      [lia|]. }
  assert (Hspace : space_at s (new_position_of s p number_of_spaces) = None).
  { unfold space_at. rewrite Hboard. simpl length. by rewrite py_index_empty. }
  rewrite Hspace. unfold after_advance, moved. rewrite Hboard, Hnew, Hcredit.
  do 4 f_equal. lia.
Qed.

Lemma move_player_without_board_witness :
  move_player "A" 3 (run [CreatePlayer "A" 100] new_game) =
  (Raise IndexError, mkGame [] {["A" := 0%nat]} [Player.Build "A" 100 3]).
Proof.
  apply (move_player_without_board "A" 3 (run [CreatePlayer "A" 100] new_game) 0%nat
           (Player.Build "A" 100 0)).
  - apply wf_run, wf_new_game.
  - vm_compute; reflexivity.
  - vm_compute; reflexivity.
  - simpl; lia.
  - lia.
  - reflexivity.
Defined.

(** ** [remove_player] *)

Lemma remove_player_eq s r p :
  heap s !! r = Some p →
  remove_player r s =
  (Ok (),
   mkGame (vacate r <$> gameboard s) (players s)
          (<[r := Player.Build (Player.name p) 0 (Player.position p)]> (heap s))).
Proof.
  intros Hp. unfold remove_player, deref, modify, vacate_all, mbind, M_bind.
  rewrite Hp. simpl. do 2 f_equal. rewrite (list_alter_Some _ _ _ _ Hp). f_equal.
  unfold Player.sub_account_balance, Player.get_account_balance.
  destruct (Z.gtb_spec (Player.account_balance p - Player.account_balance p) 0);
    [lia|]. f_equal. lia.
Qed.

Lemma vacate_idemp r sp : vacate r (vacate r sp) = vacate r sp.
Proof. apply vacate_not_owned, vacate_no_owner. Qed.

(** X6.  [remove_player] on a player object sets its balance to 0 and
    keeps its name and position, leaves every other player object and
    the registry alone (the player stays registered), and unsets the
    owner of exactly the spaces that player owned: every other space is
    unchanged.  Removing the same player again changes nothing more. *)
Theorem remove_player_clears (player_obj : ref) (p : Player.t) (s : Game) :
  heap s !! player_obj = Some p →
  ∃ s', remove_player player_obj s = (Ok (), s') ∧
    heap s' !! player_obj =
      Some (Player.Build (Player.name p) 0 (Player.position p)) ∧
    (∀ r, r ≠ player_obj → heap s' !! r = heap s !! r) ∧
    players s' = players s ∧
    Forall (λ sp, get_owner sp ≠ Some player_obj) (gameboard s') ∧
    (∀ k rent, gameboard s !! k = Some (PropertySpace rent (Some player_obj)) →
               gameboard s' !! k = Some (PropertySpace rent None)) ∧
    (∀ k sp, gameboard s !! k = Some sp → get_owner sp ≠ Some player_obj →
             gameboard s' !! k = Some sp) ∧
    remove_player player_obj s' = (Ok (), s').
Proof.
  intros Hp. eexists. split; [by apply remove_player_eq|].
  assert (Hlt : (player_obj < length (heap s))%nat) by eauto using lookup_lt_Some.
  split; [by apply list_lookup_insert_eq|].
  split; [intros r Hr; by apply list_lookup_insert_ne|].
  split; [done|]. split; [|split; [|split]]; simpl.
  - apply Forall_fmap, Forall_true. intros sp. apply vacate_no_owner.
  - intros k rent Hk. by rewrite list_lookup_fmap, Hk, <- (vacate_owned player_obj rent).
  - intros k sp Hk Hsp. rewrite list_lookup_fmap, Hk. simpl. by rewrite vacate_not_owned.
  - erewrite remove_player_eq by (by apply list_lookup_insert_eq). simpl.
    rewrite list_insert_insert_eq. do 2 f_equal.
    rewrite <- list_fmap_compose. apply list_fmap_ext. intros k sp _. simpl.
    apply vacate_idemp.
Qed.

Lemma remove_player_clears_witness :
  ∃ s', remove_player 0%nat (run opening new_game) = (Ok (), s') ∧
    heap s' !! 0%nat = Some (Player.Build "A" 0 1) ∧
    gameboard s' !! 1%nat = Some (PropertySpace 10 None).
Proof.
  destruct (remove_player_clears 0%nat (Player.Build "A" 50 1) (run opening new_game))
    as (s' & Hrun & Hobj & _ & _ & _ & Hfree & _).
  - vm_compute; reflexivity.
  - exists s'. split; [exact Hrun|]. split; [exact Hobj|].
    apply Hfree. vm_compute; reflexivity.
Defined.

(** X7.  A player without money is out of the game: once
    [remove_player] has been applied to the object registered under a
    name, [move_player] for that name returns without changing anything
    whatever the number of spaces, and on a board of non-negative rents
    [buy_space] for that name never returns [True]. *)
Theorem removed_player_is_inactive (player_name : string) (player : ref)
    (p : Player.t) (s : Game) :
  players s !! player_name = Some player →
  heap s !! player = Some p →
  (∀ n, move_player player_name n (remove_player player s).2 =
        (Ok (), (remove_player player s).2)) ∧
  (Forall space_nonneg (gameboard s) →
   (buy_space player_name (remove_player player s).2).1 ≠ Ok true).
Proof.
  intros Hname Hobj. rewrite (remove_player_eq _ _ _ Hobj). simpl snd.
  assert (Hlt : (player < length (heap s))%nat) by eauto using lookup_lt_Some.
  split.
  - intros n.
    unfold move_player, players_getitem, deref, mbind, M_bind,
      Player.get_account_balance. simpl.
    rewrite Hname. simpl. by rewrite list_lookup_insert_eq.
  - intros Hboard. rewrite buy_space_unfold. simpl.
    rewrite Hname, list_lookup_insert_eq by done. simpl.
    destruct (py_index _ _) as [k|]; [|done].
    rewrite list_lookup_fmap.
    destruct (gameboard s !! k) as [sp|] eqn:Hk; simpl; [|done].
    eapply Forall_lookup_1 in Hboard; [|done].
    destruct sp as [payout|rent [o|]]; simpl in *; try done.
    + case_decide; [|done]. by destruct (Z.gtb_spec 0 (rent * 5)); [lia|].
    + by destruct (Z.gtb_spec 0 (rent * 5)); [lia|].
Qed.

Lemma removed_player_is_inactive_witness :
  move_player "A" 3 (remove_player 0%nat (run opening new_game)).2 =
  (Ok (), (remove_player 0%nat (run opening new_game)).2).
Proof.
  destruct (removed_player_is_inactive "A" 0%nat (Player.Build "A" 50 1)
              (run opening new_game)) as [Hmove _].
  - vm_compute; reflexivity.
  - vm_compute; reflexivity.
  - apply Hmove.
Defined.

(** ** [buy_space] *)

(** X8.  [buy_space] changes the state only when it returns [True]:
    whenever it returns [False] or raises, for a registered or an
    unknown name, the state is exactly what it was. *)
Theorem buy_space_fails_cleanly (player_name : string) (s : Game) :
  (buy_space player_name s).1 ≠ Ok true → (buy_space player_name s).2 = s.
Proof. rewrite buy_space_unfold. by repeat case_match. Qed.

Lemma buy_space_fails_cleanly_witness :
  (buy_space "B" (run opening new_game)).2 = run opening new_game.
Proof.
  apply (buy_space_fails_cleanly "B" (run opening new_game)).
  vm_compute. discriminate.
Defined.

(** X9.  A space is sold once.  After a successful [buy_space] any
    registered player standing on the same position, the buyer
    included, gets [False] from [buy_space], and that second call
    changes nothing. *)
Theorem bought_space_is_taken (player_name : string) (s s' : Game)
    (player : ref) (p : Player.t) :
  players s !! player_name = Some player →
  heap s !! player = Some p →
  buy_space player_name s = (Ok true, s') →
  ∀ name' player' p',
    players s' !! name' = Some player' →
    heap s' !! player' = Some p' →
    Player.position p' = Player.position p →
    buy_space name' s' = (Ok false, s').
Proof.
  intros Hname Hobj. rewrite buy_space_unfold, Hname, Hobj.
  destruct (py_index _ _) as [k|] eqn:Hk; [|done].
  destruct (gameboard s !! k) as [[payout|rent [o|]]|] eqn:Hsp; try done.
  case_match; [|done]. intros [= <-] name' player' p' Hname' Hobj' Hpos.
  rewrite buy_space_unfold, Hname', Hobj'. simpl gameboard.
  by rewrite length_alter, Hpos, Hk, list_lookup_alter_eq, Hsp.
Qed.

Lemma bought_space_is_taken_witness :
  buy_space "A" (run opening new_game) = (Ok false, run opening new_game).
Proof.
  apply (bought_space_is_taken "A" (run (take 4 opening) new_game)
           (run opening new_game) 0%nat (Player.Build "A" 100 1))
    with (player' := 0%nat) (p' := Player.Build "A" 50 1);
    vm_compute; reflexivity.
Defined.

(** ** What the calls leave alone *)

Lemma create_spaces_loop_appends indices rent_amounts s :
  ∃ extra,
    (create_spaces_loop indices rent_amounts s).2 =
      mkGame (gameboard s ++ extra) (players s) (heap s) ∧
    Forall (λ sp, get_owner sp = None) extra.
Proof.
  revert s. induction indices as [|index rest IH]; intros s; simpl.
  - exists []. rewrite app_nil_r. by destruct s.
  - destruct (rent_amounts !! index) as [rent|].
    + unfold mbind, M_bind, gameboard_append. cbv beta iota.
      destruct (IH (mkGame (gameboard s ++ [PropertySpace rent None]) (players s) (heap s)))
        as (extra & -> & Hextra).
      exists ([PropertySpace rent None] ++ extra). simpl.
      rewrite <- app_assoc. split; [done|]. by constructor.
    + exists []. simpl. rewrite app_nil_r. by destruct s.
Qed.

Lemma create_spaces_appends go_payout rent_amounts s :
  ∃ extra,
    (create_spaces go_payout rent_amounts s).2 =
      mkGame (gameboard s ++ extra) (players s) (heap s) ∧
    Forall (λ sp, get_owner sp = None) extra.
Proof.
  unfold create_spaces, mbind, M_bind, gameboard_append. cbv beta iota.
  match goal with |- context [create_spaces_loop ?i ?r ?s1] =>
    destruct (create_spaces_loop_appends i r s1) as (extra & -> & Hextra) end.
  exists ([GoSpace go_payout] ++ extra). simpl.
  rewrite <- app_assoc. split; [done|]. by constructor.
Qed.

Lemma new_owner_vacate r sp : new_owner None (vacate r sp) = new_owner None sp.
Proof. destruct sp as [|rent [o|]]; simpl; try done. by case_decide. Qed.

Lemma layout_buy_space name s : layout (buy_space name s).2 = layout s.
Proof.
  rewrite buy_space_unfold. repeat case_match; try done.
  unfold layout. simpl.
  rewrite (list_fmap_alter _ _ id); [by apply list_alter_id|].
  apply Forall_true. by intros [].
Qed.

Lemma layout_exec o s : ¬ is_create_spaces o → layout (exec o s) = layout s.
Proof.
  destruct o as [go rents|name balance|name|name n|r]; simpl; intros Ho.
  - by destruct Ho.
  - unfold create_player. by case_match.
  - apply layout_buy_space.
  - apply (frame_move_player (λ s', layout s' = layout s)); [done| |done].
    intros r s' Hs'. rewrite <- Hs'. unfold layout. simpl. rewrite <- list_fmap_compose.
    apply list_fmap_ext. intros k sp _. apply new_owner_vacate.
  - apply (frame_remove_player (λ s', layout s' = layout s)); [done| |done].
    intros r' s' Hs'. rewrite <- Hs'. unfold layout. simpl. rewrite <- list_fmap_compose.
    apply list_fmap_ext. intros k sp _. apply new_owner_vacate.
Qed.

(** X10.  The board is append-only and, owners apart, immutable: after
    any sequence of calls the spaces that were there are still there, in
    the same order, with the same kinds, payouts and rents; only
    [create_spaces] adds spaces (at the end), and a sequence without
    [create_spaces] leaves the board, owners apart, exactly as it was. *)
Theorem board_only_grows (ops : list op) (s : Game) :
  ∃ added,
    layout (run ops s) = layout s ++ added ∧
    (Forall (λ o, ¬ is_create_spaces o) ops → added = []).
Proof.
  revert s. induction ops as [|o ops IH]; intros s.
  - exists []. by rewrite app_nil_r.
  - simpl. destruct (IH (exec o s)) as (added & Hrun & Hnone).
    destruct o as [go rents|name balance|name|name n|r].
    + destruct (create_spaces_appends go rents s) as (extra & Hexec & _).
      exists ((new_owner None <$> extra) ++ added). split.
      * rewrite Hrun. simpl. rewrite Hexec. unfold layout. simpl.
        by rewrite fmap_app, <- app_assoc.
      * intros Hops. apply Forall_cons in Hops as [Ho _]. by destruct Ho.
    + exists added. rewrite Hrun, layout_exec by (simpl; tauto).
      split; [done|]. intros Hops. apply Forall_cons in Hops as [_ Hops]. auto.
    + exists added. rewrite Hrun, layout_exec by (simpl; tauto).
      split; [done|]. intros Hops. apply Forall_cons in Hops as [_ Hops]. auto.
    + exists added. rewrite Hrun, layout_exec by (simpl; tauto).
      split; [done|]. intros Hops. apply Forall_cons in Hops as [_ Hops]. auto.
    + exists added. rewrite Hrun, layout_exec by (simpl; tauto).
      split; [done|]. intros Hops. apply Forall_cons in Hops as [_ Hops]. auto.
Qed.

Lemma board_only_grows_witness :
  layout (run [MovePlayer "B" 1; BuySpace "B"; RemovePlayer 0%nat]
              (run opening new_game)) =
  layout (run opening new_game).
Proof.
  destruct (board_only_grows [MovePlayer "B" 1; BuySpace "B"; RemovePlayer 0%nat]
              (run opening new_game)) as (added & Hrun & Hnone).
  rewrite Hrun, Hnone, app_nil_r; [reflexivity|].
  repeat constructor; simpl; tauto.
Defined.

Lemma players_exec o s : ¬ is_create_player o → players (exec o s) = players s.
Proof.
  destruct o as [go rents|name balance|name|name n|r]; simpl; intros Ho.
  - by destruct (create_spaces_appends go rents s) as (extra & -> & _).
  - by destruct Ho.
  - rewrite buy_space_unfold. by repeat case_match.
  - by apply (frame_move_player (λ s', players s' = players s)).
  - by apply (frame_remove_player (λ s', players s' = players s)).
Qed.

Lemma players_exec_mono o s name :
  is_Some (players s !! name) → is_Some (players (exec o s) !! name).
Proof.
  intros Hname. destruct o as [go rents|name' balance|name'|name' n|r];
    try (rewrite players_exec by (simpl; tauto); done).
  simpl. unfold create_player. case_match; [done|]. simpl.
  rewrite lookup_insert. by case_decide.
Qed.

(** X11.  Players are never deleted.  A name that is registered stays
    registered through any sequence of calls (also after the player went
    bankrupt or was removed), and only [create_player] changes the
    registry: a sequence without [create_player] leaves it as it was. *)
Theorem registry_only_grows (ops : list op) (s : Game) :
  (∀ name, is_Some (players s !! name) → is_Some (players (run ops s) !! name)) ∧
  (Forall (λ o, ¬ is_create_player o) ops → players (run ops s) = players s).
Proof.
  revert s. induction ops as [|o ops IH]; intros s; [done|].
  simpl. destruct (IH (exec o s)) as [Hmono Hsame]. split.
  - intros name Hname. by apply Hmono, players_exec_mono.
  - intros Hops. apply Forall_cons in Hops as [Ho Hops].
    by rewrite Hsame, players_exec.
Qed.

Lemma registry_only_grows_witness :
  players (run [MovePlayer "B" 1; RemovePlayer 1%nat] (run poor_visitor new_game)) =
  players (run poor_visitor new_game).
Proof.
  destruct (registry_only_grows [MovePlayer "B" 1; RemovePlayer 1%nat]
              (run poor_visitor new_game)) as [_ Hsame].
  apply Hsame. repeat constructor; simpl; tauto.
Defined.

(** ** Positions are never negative *)

Lemma positions_nonneg_modify r f :
  (∀ p, 0 ≤ Player.position p → 0 ≤ Player.position (f p)) →
  keeps positions_nonneg (modify r f) (λ _, True).
Proof.
  intros Hf. apply keeps_write. intros s Hs. unfold positions_nonneg. simpl.
  apply Forall_alter; [done|]. intros p _. apply Hf.
Qed.

Lemma positions_nonneg_add r amount :
  keeps positions_nonneg (modify r (Player.add_account_balance amount)) (λ _, True).
Proof. by apply positions_nonneg_modify. Qed.

Lemma positions_nonneg_sub r amount :
  keeps positions_nonneg (modify r (Player.sub_account_balance amount)) (λ _, True).
Proof.
  apply positions_nonneg_modify. intros p. by rewrite sub_account_balance_position.
Qed.

Lemma positions_nonneg_vacate_all r : keeps positions_nonneg (vacate_all r) (λ _, True).
Proof. by apply keeps_write. Qed.

Lemma positions_nonneg_remove_player r :
  keeps positions_nonneg (remove_player r) (λ _, True).
Proof.
  unfold remove_player.
  repeat first [apply positions_nonneg_sub | apply positions_nonneg_vacate_all
               | frame_step].
Qed.

Lemma positions_nonneg_settle player new :
  keeps positions_nonneg (settle player new) (λ _, True).
Proof.
  unfold settle.
  repeat first [apply positions_nonneg_sub | apply positions_nonneg_add
               | apply positions_nonneg_remove_player | frame_step].
Qed.

Lemma move_player_nonneg_position n size p :
  0 ≤ n → 0 ≤ Player.position p → 0 ≤ Player.position (Player.move_player n size p).
Proof.
  intros Hn Hp. unfold Player.move_player. cbv zeta.
  destruct (Z.geb_spec (Player.position p + n) size); simpl; lia.
Qed.

Lemma positions_nonneg_advance player old n :
  0 ≤ n → keeps positions_nonneg (advance player old n) (λ _, True).
Proof.
  intros Hn. unfold advance.
  eapply keeps_bind with (φ := λ _, True); [by apply keeps_read|]. intros size _.
  eapply keeps_bind with (φ := λ _, True).
  { apply positions_nonneg_modify. intros p. by apply move_player_nonneg_position. }
  intros _ _. repeat first [apply positions_nonneg_add | frame_step].
Qed.

Lemma positions_nonneg_move_player name n :
  keeps positions_nonneg (move_player name n) (λ _, True).
Proof.
  unfold move_player.
  eapply keeps_bind with (φ := λ _, True); [frame_step|]. intros player _.
  eapply keeps_bind with (φ := λ _, True); [frame_step|]. intros p _.
  case_match; [frame_step|].
  destruct (Z.ltb_spec n 1); simpl; [frame_step|].
  destruct (Z.gtb_spec n 6); simpl; [frame_step|].
  eapply keeps_bind with (φ := λ _, True); [apply positions_nonneg_advance; lia|].
  intros new _. apply positions_nonneg_settle.
Qed.

Lemma positions_nonneg_exec o s : positions_nonneg s → positions_nonneg (exec o s).
Proof.
  destruct o as [go rents|name balance|name|name n|r]; simpl; intros Hs.
  - by destruct (create_spaces_appends go rents s) as (extra & -> & _).
  - unfold create_player. case_match; [done|]. unfold positions_nonneg. simpl.
    apply Forall_app; split; [done|]. by apply Forall_singleton.
  - rewrite buy_space_unfold. repeat case_match; try done.
    unfold positions_nonneg. simpl. apply Forall_alter; [done|].
    intros q _. by rewrite sub_account_balance_position.
  - by apply positions_nonneg_move_player.
  - by apply positions_nonneg_remove_player.
Qed.

(** X12.  Whatever the driver calls, in whatever order and whether or
    not the calls raise, no player object ever stands on a negative
    position: the board is never subscripted from its end. *)
Theorem positions_never_negative (ops : list op) :
  Forall (λ p, 0 ≤ Player.position p) (heap (run ops new_game)).
Proof.
  assert (∀ s, positions_nonneg s → positions_nonneg (run ops s)) as Hrun.
  { induction ops as [|o ops IH]; intros s Hs; [done|].
    simpl. by apply IH, positions_nonneg_exec. }
  apply Hrun. constructor.
Qed.

(** ** Money and purchases *)

(** X13.  There is no bank: a successful purchase takes exactly the buy
    price, five times the rent, out of the money of the registered
    players; nobody receives it. *)
Theorem purchase_removes_price (s : Game) (player_name : string) (player : ref)
    (p : Player.t) (rent : Z) :
  wf s →
  players s !! player_name = Some player →
  heap s !! player = Some p →
  space_at s (Player.position p) = Some (PropertySpace rent None) →
  rent * 5 < Player.account_balance p →
  (buy_space player_name s).1 = Ok true ∧
  total_balance (buy_space player_name s).2 = total_balance s - rent * 5.
Proof.
  intros Hwf Hname Hobj Hspace Hrich.
  rewrite buy_space_unfold, Hname, Hobj. unfold space_at in Hspace.
  destruct (py_index _ _) as [k|]; [|done]. simpl in Hspace. rewrite Hspace.
  destruct (Z.gtb_spec (Player.account_balance p) (rent * 5)); [|lia].
  split; [done|]. simpl snd.
  rewrite (total_balance_one s _ player); [|done|done|by exists player_name|].
  - unfold balance_at. simpl. rewrite list_lookup_alter_eq, Hobj. simpl.
    rewrite sub_rent_balance by lia. lia.
  - intros r Hr. unfold balance_at. simpl. by rewrite list_lookup_alter_ne.
Qed.

Lemma purchase_removes_price_witness :
  total_balance (buy_space "A" (run (take 4 opening) new_game)).2 =
  total_balance (run (take 4 opening) new_game) - 10 * 5.
Proof.
  apply (purchase_removes_price (run (take 4 opening) new_game) "A" 0%nat
           (Player.Build "A" 100 1) 10).
  - apply wf_run, wf_new_game.
  - vm_compute; reflexivity.
  - vm_compute; reflexivity.
  - vm_compute; reflexivity.
  - simpl; lia.
Defined.

(** X14.  [remove_player] applied to a registered player destroys that
    player's money: the total of the registered balances drops by
    exactly the balance the player had. *)
Theorem removal_destroys_balance (s : Game) (player_name : string) (player : ref)
    (p : Player.t) :
  wf s →
  players s !! player_name = Some player →
  heap s !! player = Some p →
  total_balance (remove_player player s).2 =
  total_balance s - Player.account_balance p.
Proof.
  intros Hwf Hname Hobj. rewrite (remove_player_eq _ _ _ Hobj). simpl snd.
  rewrite (total_balance_one s _ player); [|done|done|by exists player_name|].
  - unfold balance_at. simpl.
    rewrite list_lookup_insert_eq by eauto using lookup_lt_Some.
    rewrite Hobj. simpl. lia.
  - intros r Hr. unfold balance_at. simpl. by rewrite list_lookup_insert_ne.
Qed.

Lemma removal_destroys_balance_witness :
  total_balance (remove_player 1%nat (run opening new_game)).2 =
  total_balance (run opening new_game) - 100.
Proof.
  apply (removal_destroys_balance (run opening new_game) "B" 1%nat
           (Player.Build "B" 100 0)).
  - apply wf_run, wf_new_game.
  - vm_compute; reflexivity.
  - vm_compute; reflexivity.
Defined.

(** ** Ownership *)

Lemma owner_at_vacate_all r s k o :
  owner_at (vacate_all r s).2 k = Some o → owner_at s k = Some o.
Proof.
  rewrite !owner_at_Some. simpl. rewrite list_lookup_fmap.
  intros (sp' & Hk & Hown). destruct (gameboard s !! k) as [sp|]; [|done].
  simpl in Hk. injection Hk as <-. exists sp. split; [done|].
  by apply get_owner_vacate in Hown.
Qed.

(** X15.  Ownership only comes from a purchase.  A space that has an
    owner after [move_player], [remove_player], [create_player] or
    [create_spaces] had that same owner before the call; a space that
    has an owner after [buy_space] had that owner before, or the owner
    is the player object registered under the buyer's name. *)
Theorem ownership_comes_from_buy_space (o : op) (s : Game) (k : nat) (owner : ref) :
  owner_at (exec o s) k = Some owner →
  owner_at s k = Some owner ∨
  ∃ player_name, o = BuySpace player_name ∧ players s !! player_name = Some owner.
Proof.
  destruct o as [go rents|name balance|name|name n|r]; simpl.
  - destruct (create_spaces_appends go rents s) as (extra & Hexec & Hextra).
    rewrite Hexec. rewrite !owner_at_Some. simpl.
    intros (sp & Hk & Hown). left. exists sp. split; [|done].
    apply lookup_app_Some in Hk as [Hk|[_ Hk]]; [done|].
    eapply Forall_lookup_1 in Hextra; [|done]. congruence.
  - unfold create_player. case_match; simpl; by left.
  - rewrite buy_space_unfold.
    destruct (players s !! name) as [r|] eqn:Hname; [|by left].
    destruct (heap s !! r) as [p|]; [|by left].
    destruct (py_index _ _) as [k'|]; [|by left].
    destruct (gameboard s !! k') as [[payout|rent [o'|]]|] eqn:Hk'; try (by left).
    case_match; [|by left]. simpl. rewrite !owner_at_Some. simpl.
    intros (sp & Hk & Hown). destruct (decide (k' = k)) as [->|Hne].
    + rewrite list_lookup_alter_eq, Hk' in Hk. simpl in Hk. injection Hk as <-.
      simpl in Hown. injection Hown as <-. right. by exists name.
    + rewrite list_lookup_alter_ne in Hk by done. left. by exists sp.
  - intros Hown. left. revert k owner Hown.
    apply (frame_move_player
             (λ s', ∀ k o, owner_at s' k = Some o → owner_at s k = Some o));
      [done| |done].
    intros r s' Hs' k o Hown%owner_at_vacate_all. by apply Hs'.
  - intros Hown. left. revert k owner Hown.
    apply (frame_remove_player
             (λ s', ∀ k o, owner_at s' k = Some o → owner_at s k = Some o));
      [done| |done].
    intros r' s' Hs' k o Hown%owner_at_vacate_all. by apply Hs'.
Qed.

Lemma ownership_comes_from_buy_space_witness :
  owner_at (run (take 4 opening) new_game) 1%nat = Some 0%nat ∨
  ∃ player_name, BuySpace "A" = BuySpace player_name ∧
    players (run (take 4 opening) new_game) !! player_name = Some 0%nat.
Proof.
  apply (ownership_comes_from_buy_space (BuySpace "A")
           (run (take 4 opening) new_game) 1%nat 0%nat).
  vm_compute; reflexivity.
Defined.

(** ** Calls that cannot fail *)

Lemma space_at_on_board s i :
  length (gameboard s) = 25%nat → 0 ≤ i ≤ 24 → is_Some (space_at s i).
Proof.
  intros Hlen Hi. unfold space_at, py_index. rewrite Hlen.
  destruct (Z.leb_spec 0 i); [|lia].
  destruct (Z.ltb_spec i (Z.of_nat 25)); [|lia]. simpl.
  apply lookup_lt_is_Some_2. lia.
Qed.

(** X16.  When the driver follows its protocol ([create_spaces] once,
    with at least 24 rents, before any move), [move_player] and
    [buy_space] never raise for a registered name: [move_player] returns
    normally for every number of spaces, and [buy_space] returns [True]
    or [False]. *)
Theorem protocol_calls_return (ops : list op) (player_name : string) :
  protocol ops →
  is_Some (players (run ops new_game) !! player_name) →
  (∀ n, (move_player player_name n (run ops new_game)).1 = Ok ()) ∧
  (∃ bought, (buy_space player_name (run ops new_game)).1 = Ok bought).
Proof.
  intros Hops [player Hname].
  pose proof (protocol_board_ready ops Hops) as [Hlen Hpos].
  assert (Hwf : wf (run ops new_game)) by apply wf_run, wf_new_game.
  destruct (wf_lookup _ _ _ Hwf Hname) as [p Hobj].
  assert (Hp : on_board p) by (by eapply Forall_lookup_1 in Hpos).
  split.
  - intros n.
    destruct (decide (Player.account_balance p = 0)) as [Hzero|Hactive].
    { unfold move_player, players_getitem, deref, mbind, M_bind,
        Player.get_account_balance.
      by rewrite Hname, Hobj, Hzero. }
    destruct (decide (1 ≤ n ≤ 6)) as [Hn|Hn].
    + rewrite (move_player_cases _ player_name n player p) by done. cbv zeta.
      destruct (space_at_on_board (run ops new_game)
                  (new_position_of (run ops new_game) p n)) as [sp ->]; [done| |].
      { unfold new_position_of. rewrite Hlen. by apply move_player_on_board. }
      by repeat case_match.
    + unfold move_player, players_getitem, deref, mbind, M_bind,
        Player.get_account_balance.
      rewrite Hname, Hobj. destruct (Player.account_balance p =? 0); [done|].
      destruct (Z.ltb_spec n 1); [done|]. destruct (Z.gtb_spec n 6); [done|]. lia.
  - rewrite buy_space_unfold, Hname, Hobj.
    destruct (space_at_on_board (run ops new_game) (Player.position p))
      as [sp Hsp]; [done..|].
    unfold space_at in Hsp. destruct (py_index _ _) as [k|]; [|done].
    simpl in Hsp. rewrite Hsp. repeat case_match; eauto.
Qed.

Lemma protocol_calls_return_witness :
  (move_player "A" 3 (run lap new_game)).1 = Ok ().
Proof.
  destruct (protocol_calls_return lap "A") as [Hmove _].
  - exists [], 50, (replicate 24 10), (tail lap).
    split; [reflexivity|]. split; [constructor|]. split; [vm_compute; lia|].
    repeat constructor; simpl; tauto.
  - exists 0%nat. vm_compute; reflexivity.
  - apply Hmove.
Defined.

(** ** What a move touches *)

(** X17.  A move by a registered player with nonzero balance of 1 to 6
    spaces touches at most two player objects: every object other than
    the mover and the owner of the space landed on is exactly as it was,
    and the registry is unchanged. *)
Theorem move_touches_mover_and_owner (s : Game) (player_name : string)
    (number_of_spaces : Z) (player : ref) (p : Player.t) :
  wf s →
  players s !! player_name = Some player →
  heap s !! player = Some p →
  Player.account_balance p ≠ 0 →
  1 ≤ number_of_spaces ≤ 6 →
  players (move_player player_name number_of_spaces s).2 = players s ∧
  ∀ r, r ≠ player →
       owner_at_position s (new_position_of s p number_of_spaces) ≠ Some r →
       heap (move_player player_name number_of_spaces s).2 !! r = heap s !! r.
Proof.
  intros Hwf Hname Hobj Hactive Hn.
  rewrite (move_player_cases s player_name number_of_spaces player p) by done.
  cbv zeta. unfold owner_at_position.
  destruct (space_at s _) as [[payout|rent [o|]]|]; simpl;
    try (split; [done|]; intros r Hr _; by apply list_lookup_insert_ne).
  case_decide; [split; [done|]; intros r Hr _; by apply list_lookup_insert_ne|].
  case_match; (split; [done|]); intros r Hr Ho; simpl;
    rewrite !list_lookup_alter_ne by congruence; by apply list_lookup_insert_ne.
Qed.

Lemma move_touches_mover_and_owner_witness :
  heap (move_player "B" 1 (run reregistered new_game)).2 !! 2%nat =
  heap (run reregistered new_game) !! 2%nat.
Proof.
  destruct (move_touches_mover_and_owner (run reregistered new_game) "B" 1 1%nat
              (Player.Build "B" 100 0)) as [_ Hother].
  - apply wf_run, wf_new_game.
  - vm_compute; reflexivity.
  - vm_compute; reflexivity.
  - simpl; lia.
  - lia.
  - apply Hother; [lia|]. vm_compute. discriminate.
Defined.

(** ** [Player.move_player] on any board *)

(** X18.  On a board of any size, [Player.move_player] started from a
    position on the board with a number of spaces between 0 and the size
    of the board ends on (position + spaces) mod size, which is on the
    board again; name and balance are untouched. *)
Theorem player_move_is_modulo (number_of_spaces board_size : Z) (p : Player.t) :
  0 ≤ Player.position p < board_size →
  0 ≤ number_of_spaces ≤ board_size →
  Player.position (Player.move_player number_of_spaces board_size p) =
    (Player.position p + number_of_spaces) mod board_size ∧
  0 ≤ Player.position (Player.move_player number_of_spaces board_size p) < board_size ∧
  Player.name (Player.move_player number_of_spaces board_size p) = Player.name p ∧
  Player.account_balance (Player.move_player number_of_spaces board_size p) =
    Player.account_balance p.
Proof.
  intros Hp Hn. unfold Player.move_player. cbv zeta.
  destruct (Z.geb_spec (Player.position p + number_of_spaces) board_size); simpl.
  - split; [|split; [lia|done]]. apply (Z.mod_unique _ _ 1); lia.
  - split; [|split; [lia|done]]. symmetry. apply Z.mod_small. lia.
Qed.

Lemma player_move_is_modulo_witness :
  Player.position (Player.move_player 4 10 (Player.Build "A" 1 8)) = (8 + 4) mod 10.
Proof.
  apply (player_move_is_modulo 4 10 (Player.Build "A" 1 8)); simpl; lia.
Defined.

(** ** Out of the game for good *)

Lemma out_of_game_move_player name n s r :
  wf s → out_of_game s r → out_of_game (move_player name n s).2 r.
Proof.
  intros Hwf [(q & Hq & Hzero) Hfree].
  destruct (players s !! name) as [player|] eqn:Hname.
  2: { unfold move_player, players_getitem, mbind, M_bind. rewrite Hname.
       split; eauto. }
  destruct (wf_lookup s name player Hwf Hname) as [p Hobj].
  destruct (decide (Player.account_balance p = 0)) as [Hp|Hactive].
  { unfold move_player, players_getitem, deref, mbind, M_bind,
      Player.get_account_balance.
    rewrite Hname, Hobj, Hp. split; eauto. }
  destruct (decide (1 ≤ n ≤ 6)) as [Hn|Hn].
  2: { unfold move_player, players_getitem, deref, mbind, M_bind,
         Player.get_account_balance.
       rewrite Hname, Hobj. destruct (Player.account_balance p =? 0); [split; eauto|].
       destruct (Z.ltb_spec n 1); [split; eauto|].
       destruct (Z.gtb_spec n 6); [split; eauto|]. lia. }
  assert (Hr : r ≠ player) by congruence.
  assert (Hs1 : out_of_game (after_advance s player p n) r).
  { split; [|done]. exists q. by rewrite after_advance_other. }
  rewrite (move_player_cases s name n player p) by done. cbv zeta.
  destruct (space_at s _) as [[payout|rent [o|]]|] eqn:Hspace; try done.
  case_decide; [done|].
  assert (Ho : r ≠ o).
  { intros ->. apply space_at_lookup in Hspace as [k Hk].
    by eapply Forall_lookup_1 in Hfree; [|done]. }
  assert (Hbal : ∀ f g b ps,
            heap (mkGame b ps (alter f player (alter g o
              (<[player := moved s p n]> (heap s))))) !! r = Some q).
  { intros f g b ps. simpl.
    by rewrite !list_lookup_alter_ne, list_lookup_insert_ne by done. }
  case_match; (split; [exists q; split; [apply Hbal|done]|]); simpl; [|done].
  apply Forall_fmap. eapply Forall_impl; [done|].
  intros sp Hsp Hown%get_owner_vacate. by apply Hsp.
Qed.

Lemma out_of_game_buy_space name s r :
  Forall space_nonneg (gameboard s) →
  out_of_game s r → out_of_game (buy_space name s).2 r.
Proof.
  intros Hrents [(q & Hq & Hzero) Hfree]. rewrite buy_space_unfold.
  destruct (players s !! name) as [player|] eqn:Hname; [|split; eauto].
  destruct (heap s !! player) as [p|] eqn:Hobj; [|split; eauto].
  destruct (py_index _ _) as [k|]; [|split; eauto].
  destruct (gameboard s !! k) as [[payout|rent [o|]]|] eqn:Hk; try (split; eauto; fail).
  destruct (Z.gtb_spec (Player.account_balance p) (rent * 5)); [|split; eauto].
  eapply Forall_lookup_1 in Hrents; [|done]. simpl in Hrents.
  assert (Hr : player ≠ r) by (intros ->; simplify_eq; lia).
  split; simpl.
  - exists q. by rewrite list_lookup_alter_ne.
  - apply Forall_alter; [done|]. intros [|rent' o'] _ _; simpl; congruence.
Qed.

Lemma out_of_game_remove_player r' s r :
  out_of_game s r → out_of_game (remove_player r' s).2 r.
Proof.
  intros [(q & Hq & Hzero) Hfree].
  destruct (heap s !! r') as [p|] eqn:Hp.
  2: { unfold remove_player, deref, mbind, M_bind. rewrite Hp. split; eauto. }
  rewrite (remove_player_eq _ _ _ Hp). split; simpl.
  - destruct (decide (r' = r)) as [->|Hne].
    + eexists. split; [apply list_lookup_insert_eq; eauto using lookup_lt_Some|done].
    + exists q. by rewrite list_lookup_insert_ne.
  - apply Forall_fmap. eapply Forall_impl; [done|].
    intros sp Hsp Hown%get_owner_vacate. by apply Hsp.
Qed.

Lemma out_of_game_exec o s r :
  wf s → nonneg s → out_of_game s r → out_of_game (exec o s) r.
Proof.
  intros Hwf [_ Hrents] Hout.
  destruct o as [go rents|name balance|name|name n|r']; simpl.
  - destruct Hout as [(q & Hq & Hzero) Hfree].
    destruct (create_spaces_appends go rents s) as (extra & -> & Hextra).
    split; [eauto|]. simpl. apply Forall_app. split; [done|].
    eapply Forall_impl; [done|]. by intros sp ->.
  - destruct Hout as [(q & Hq & Hzero) Hfree].
    unfold create_player. case_match; [split; eauto|]. split; [|done].
    exists q. simpl. split; [|done]. by apply lookup_app_l_Some.
  - by apply out_of_game_buy_space.
  - by apply out_of_game_move_player.
  - by apply out_of_game_remove_player.
Qed.

(** X19.  Nobody comes back.  On a board of non-negative payouts and
    rents, a player object with balance 0 that owns no space keeps
    balance 0 and owns no space after any further sequence of calls:
    it cannot move, cannot buy, collects no rent, and [create_player]
    under its name makes a new object instead of reviving it. *)
Theorem out_of_game_forever (ops : list op) (s : Game) (r : ref) :
  wf s → nonneg s → Forall op_nonneg ops →
  out_of_game s r → out_of_game (run ops s) r.
Proof.
  intros Hwf Hnonneg Hops. revert s Hwf Hnonneg.
  induction Hops as [|o ops Ho _ IH]; intros s Hwf Hnonneg Hout; [done|].
  simpl. apply IH; [by apply wf_exec|by apply nonneg_exec|].
  by apply out_of_game_exec.
Qed.

Lemma out_of_game_forever_witness :
  out_of_game
    (run [CreatePlayer "B" 500; MovePlayer "A" 2; MovePlayer "B" 1; BuySpace "B"]
         (run (poor_visitor ++ [MovePlayer "B" 1]) new_game)) 1%nat.
Proof.
  apply (out_of_game_forever _ (run (poor_visitor ++ [MovePlayer "B" 1]) new_game)).
  - apply wf_run, wf_new_game.
  - apply nonneg_run; [|apply nonneg_new_game].
    repeat constructor; simpl; try lia.
  - repeat constructor; simpl; try lia.
  - split.
    + exists (Player.Build "B" 0 1). vm_compute. split; reflexivity.
    + vm_compute. repeat constructor; discriminate.
Defined.
